(** * react-native-platform-override: the command line front end (Cli.ts)

    A shallow embedding of [src/packages/react-native-platform-override/src/Cli.ts].

    The commands of the tool are asynchronous functions which write to the
    console, drive an [ora] spinner, set the exit code of the process and call
    into the manifest API. They are embedded as computations of a state and
    exception monad [M] over a [World]; [doMain], which brackets a command
    with the cross-process lock, is embedded as a process [Proc] whose lock
    operations are visible events, so that it can be run next to other
    processes contending for the same lock. *)

From stdpp Require Import base option list sorting gmap strings pretty.
From Stdlib Require Import ZArith Lia Ascii.

Local Open Scope string_scope.
Local Open Scope list_scope.

(** ** Values *)

(** A thrown JavaScript value: every exception raised in Cli.ts is
    [new Error(message)]; failures of the collaborators are errors too. *)
Inductive Exn : Type :=
| Error (message : string).

(** The chalk styles the file uses. *)
Inductive Chalk : Type :=
| red | yellow | greenBright | yellowBright.

(** A console argument: a plain string or a string wrapped by a chalk style. *)
Inductive Text : Type :=
| plain (s : string)
| chalk (c : Chalk) (s : string).

(** What reaches the terminal, in order. [Err None] is [console.error()],
    an empty line. [Persist ok text] is the line an ora spinner leaves when it
    is ended by [succeed] ([ok = true]) or [fail] ([ok = false]). [Dash text]
    is the line "- text" which [start] writes, in place of the frames of the
    spinner, when the stream is not an interactive terminal. *)
Inductive Output : Type :=
| Log (t : Text)
| Warn (t : Text)
| Err (t : option Text)
| Persist (ok : bool) (text : string)
| Dash (text : string).

(** An ora spinner object. *)
Record Ora : Type := mkOra {
  text : string;
  isSpinning : bool
}.

(** Modelled from the spec: ValidationStrategy.ts, which declares the type, is
    not part of the sources. A validation error is a [type], one of the
    strings of a closed taxonomy, and the [overrideName] it is about; Cli.ts
    reads these two fields and compares [type] as a string. *)
Record ValidationError : Type := mkValidationError {
  type : string;
  overrideName : string
}.

(** Modelled from the spec: UpgradeStrategy.ts, which declares the type, is
    not part of the sources. The outcome of upgrading one override; Cli.ts
    reads [hasConflicts]. *)
Record UpgradeResult : Type := mkUpgradeResult {
  upgradedName : string;
  hasConflicts : bool
}.

(** Modelled from the spec: the classes of overrides are not part of the
    sources. An entry of the override manifest, with the attributes of the
    data model; [name] is its [overrideName], [kind] its [type]. *)
Record Override : Type := mkOverride {
  name : string;
  kind : string;
  baseFile : option string;
  baseVersion : string;
  issue : option string;
  comment : option string
}.

(** ** The arguments of the commands *)

(** The options of the validate command, and of the upgrade command below. *)
Record ValidateOpts : Type := mkValidateOpts {
  validate_manifestPath : option string;
  validate_reactNativeVersion : option string
}.

(** Modelled from the spec: OverridePrompt.ts is not part of the sources.
    What the user answers when asked about a new override. *)
Record OverrideDetails : Type := mkOverrideDetails {
  details_type : string;
  details_baseFile : option string;
  details_issue : option string;
  details_comment : option string
}.

(** Modelled from the spec: Api.ts is not part of the sources. What
    [Api.getOverrideFactory] hands out: the directory of the manifest, against
    which names are taken, and the version new overrides are based on. *)
Record OverrideFactory : Type := mkOverrideFactory {
  factory_manifestDir : string;
  factory_version : string
}.

Record UpgradeOpts : Type := mkUpgradeOpts {
  manifestPath : option string;
  reactNativeVersion : option string;
  allowConflicts : bool
}.

(** A value yargs gives an option. *)
Inductive ArgValue : Type :=
| ArgString (s : string)
| ArgBoolean (b : bool).

Record YargsOption : Type := mkYargsOption {
  option_type : string;
  option_default : option ArgValue;
  option_describe : string
}.

(** ** The world a command runs in *)

(** [interactive] tells whether the stream ora writes to is an interactive
    terminal: spinners are enabled there, and nowhere else. *)
Record World : Type := mkWorld {
  console : list Output;
  spinners : list Ora;
  exitCode : option Z;
  manifest : list Override;
  files : gmap string string;
  interactive : bool
}.

Definition set_console (f : list Output → list Output) (w : World) : World :=
  mkWorld (f (console w)) (spinners w) (exitCode w) (manifest w) (files w) (interactive w).
Definition set_spinners (f : list Ora → list Ora) (w : World) : World :=
  mkWorld (console w) (f (spinners w)) (exitCode w) (manifest w) (files w) (interactive w).
Definition set_exitCode (c : option Z) (w : World) : World :=
  mkWorld (console w) (spinners w) c (manifest w) (files w) (interactive w).
Definition set_manifest (f : list Override → list Override) (w : World) : World :=
  mkWorld (console w) (spinners w) (exitCode w) (f (manifest w)) (files w) (interactive w).
Definition set_files (f : gmap string string → gmap string string) (w : World) : World :=
  mkWorld (console w) (spinners w) (exitCode w) (manifest w) (f (files w)) (interactive w).

(** How a call ends: it returns a value, throws, or ends the process with
    [process.exit(code)]. *)
Inductive Outcome (A : Type) : Type :=
| Returned (a : A)
| Thrown (ex : Exn)
| Exited (code : Z).
Arguments Returned {A} a.
Arguments Thrown {A} ex.
Arguments Exited {A} code.

(** ** The monad of commands *)

Definition M (A : Type) : Type := World → Outcome A * World.

Definition ret {A} (a : A) : M A := λ w, (Returned a, w).
Definition throw {A} (ex : Exn) : M A := λ w, (Thrown ex, w).
Definition bind {A B} (m : M A) (k : A → M B) : M B :=
  λ w, match m w with
       | (Returned a, w') => k a w'
       | (Thrown ex, w') => (Thrown ex, w')
       | (Exited c, w') => (Exited c, w')
       end.
(** [try { return await m } catch (ex) { handler(ex) }] *)
Definition try_catch {A} (m : M A) (handler : Exn → M A) : M A :=
  λ w, match m w with
       | (Thrown ex, w') => handler ex w'
       | r => r
       end.
Definition modify (f : World → World) : M unit := λ w, (Returned tt, f w).
Definition gets {A} (f : World → A) : M A := λ w, (Returned (f w), w).

#[global] Instance M_ret : MRet M := @ret.
#[global] Instance M_bind : MBind M := λ A B k m, bind m k.

(** ** Console, process and ora *)

Definition console_log (t : Text) : M unit := modify (set_console (λ o, o ++ [Log t])).
Definition console_warn (t : Text) : M unit := modify (set_console (λ o, o ++ [Warn t])).
Definition console_error (t : option Text) : M unit := modify (set_console (λ o, o ++ [Err t])).
Definition process_exit {A} (c : Z) : M A := λ w, (Exited c, w).
Definition process_set_exitCode (c : Z) : M unit := modify (set_exitCode (Some c)).

(** [ora(text).start()]: a new spinner; the handle is its index. On an
    interactive terminal the spinner spins, and its frames are no part of the
    output. On another stream the spinner is not enabled: [start] writes the
    line "- text" and returns, and the spinner does not spin. *)
Definition ora_start (t : string) : M nat :=
  λ w, (Returned (length (spinners w)),
        if interactive w
        then set_spinners (λ s, s ++ [mkOra t true]) w
        else set_console (λ o, o ++ [Dash t])
               (set_spinners (λ s, s ++ [mkOra t false]) w)).
Definition ora_isSpinning (sp : nat) : M bool :=
  gets (λ w, default false (isSpinning <$> spinners w !! sp)).
Definition ora_text (sp : nat) : M string :=
  gets (λ w, default "" (text <$> spinners w !! sp)).
Definition ora_set_text (sp : nat) (t : string) : M unit :=
  modify (set_spinners (alter (λ o, mkOra t (isSpinning o)) sp)).
Definition ora_halt (sp : nat) : M unit :=
  modify (set_spinners (alter (λ o, mkOra (text o) false) sp)).
(** [spinner.stop()] clears the spinner and prints nothing; a spinner which
    is not spinning is left as it is. *)
Definition ora_stop (sp : nat) : M unit := ora_halt sp.
(** [spinner.succeed()] and [spinner.fail()] stop the spinner and leave its
    text on a line with a mark. *)
Definition ora_persist (ok : bool) (sp : nat) : M unit :=
  t ← ora_text sp;
  ora_halt sp;;
  modify (set_console (λ o, o ++ [Persist ok t])).
Definition ora_succeed : nat → M unit := ora_persist true.
Definition ora_fail : nat → M unit := ora_persist false.

(** ** lodash and Array.prototype *)

(** [_.clone(array)]: a shallow copy; the embedding passes lists by value. *)
Definition lodash_clone {A} (array : list A) : list A := array.

(** [_.remove(array, predicate)] takes the elements the predicate accepts out
    of the array, in place, and returns them in their order. The pair is the
    returned array and the array as it is left. *)
Definition lodash_remove {A} (predicate : A → bool) (array : list A) : list A * list A :=
  (List.filter predicate array, List.filter (λ x, negb (predicate x)) array).

(** [array.sort(compareFn)]: the sort is stable, [a] goes before [b] when
    [compareFn(a, b) < 0] and after it when [compareFn(a, b) > 0]. For a
    consistent comparator that fixes the result; it is computed here by
    insertion from the right, which keeps equal elements in their order. *)
Fixpoint sort_insert {A} (compareFn : A → A → Z) (x : A) (l : list A) : list A :=
  match l with
  | [] => [x]
  | y :: l' => if (0 <? compareFn x y)%Z then y :: sort_insert compareFn x l' else x :: l
  end.
Definition Array_sort {A} (compareFn : A → A → Z) (array : list A) : list A :=
  foldr (sort_insert compareFn) [] array.

(** [String(array)] for an array of objects: [[object Object]] for each,
    joined by commas. *)
Definition Array_toString {A} (array : list A) : string :=
  String.concat "," (map (λ _, "[object Object]") array).

(** The characters a Rocq string literal cannot hold as they stand. *)
Definition newline : string := String (Ascii.ascii_of_nat 10) EmptyString.
Definition dquote : string := String (Ascii.ascii_of_nat 34) EmptyString.

(** ** The cross-process lock *)

Module CrossProcessLock.

(** Modelled from the spec: CrossProcessLock.ts is not part of the sources. A
    named, process-external mutual-exclusion primitive: the state of the
    machine is, for each lock name, the process which holds it. *)
Abbreviation State := (gmap string nat).

(** Modelled from the spec: [tryLock() -> bool], non-blocking; true if
    acquired. *)
Definition tryLock (pid : nat) (lockName : string) (s : State) : bool * State :=
  match s !! lockName with
  | None => (true, <[lockName := pid]> s)
  | Some _ => (false, s)
  end.

(** Modelled from the spec: [lock()] blocks the caller until acquisition
    succeeds. The call returns in the states where the lock is free, and has
    no step ([None]) where it is held. *)
Definition lock (pid : nat) (lockName : string) (s : State) : option State :=
  match s !! lockName with
  | None => Some (<[lockName := pid]> s)
  | Some _ => None
  end.

(** Modelled from the spec: [unlock()] releases the lock its caller holds. *)
Definition unlock (pid : nat) (lockName : string) (s : State) : State :=
  if bool_decide (s !! lockName = Some pid) then delete lockName s else s.

(** What the processes of a machine do to its locks, as it is seen from
    outside: a [tryLock] with its answer, a [lock] that has returned, an
    [unlock]. *)
Inductive Event : Type :=
| TryLocked (pid : nat) (lockName : string) (acquired : bool)
| Locked (pid : nat) (lockName : string)
| Unlocked (pid : nat) (lockName : string).

(** The state after an event, when the event can happen in the state. *)
Definition after (s : State) (ev : Event) : option State :=
  match ev with
  | TryLocked pid n acquired =>
      let '(b, s') := tryLock pid n s in
      if bool_decide (b = acquired) then Some s' else None
  | Locked pid n => lock pid n s
  | Unlocked pid n => Some (unlock pid n s)
  end.

(** The state after a history of events, when the history can happen. *)
Fixpoint run (s : State) (history : list Event) : option State :=
  match history with
  | [] => Some s
  | ev :: history' =>
      match after s ev with
      | Some s' => run s' history'
      | None => None
      end
  end.

End CrossProcessLock.

#[global] Instance Event_eq_dec : EqDecision CrossProcessLock.Event.
Proof. solve_decision. Defined.

(** ** Processes *)

#[local] Set Warnings "-register-all".

(** A process: code of [M] between the calls to the lock, which are the
    points where it meets the other processes. [Halt o] is its end. *)
Inductive Proc (A : Type) : Type :=
| Halt (o : Outcome A)
| TryLock (lockName : string) (k : bool → Proc A)
| Lock (lockName : string) (k : Proc A)
| Unlock (lockName : string) (k : Proc A)
| Local (f : World → World * Proc A).
Arguments Halt {A} o.
Arguments TryLock {A} lockName k.
Arguments Lock {A} lockName k.
Arguments Unlock {A} lockName k.
Arguments Local {A} f.

Fixpoint Proc_bind {A B} (k : A → Proc B) (p : Proc A) : Proc B :=
  match p with
  | Halt (Returned a) => k a
  | Halt (Thrown ex) => Halt (Thrown ex)
  | Halt (Exited c) => Halt (Exited c)
  | TryLock n c => TryLock n (λ b, Proc_bind k (c b))
  | Lock n c => Lock n (Proc_bind k c)
  | Unlock n c => Unlock n (Proc_bind k c)
  | Local f => Local (λ w, let '(w', c) := f w in (w', Proc_bind k c))
  end.

#[global] Instance Proc_ret : MRet Proc := λ A a, Halt (Returned a).
#[global] Instance Proc_mbind : MBind Proc := @Proc_bind.

(** A command run inside a process. *)
Definition await {A} (m : M A) : Proc A :=
  Local (λ w, let '(o, w') := m w in (w', Halt o)).
Definition lock_tryLock (lockName : string) : Proc bool := TryLock lockName mret.
Definition lock_lock (lockName : string) : Proc unit := Lock lockName (mret tt).
Definition lock_unlock (lockName : string) : Proc unit := Unlock lockName (mret tt).

(** How far a process got. *)
Inductive Status (A : Type) : Type :=
| Finished (o : Outcome A)
| Waiting (lockName : string) (k : Proc A).
Arguments Finished {A} o.
Arguments Waiting {A} lockName k.

(** The run of process [pid] for as long as it can go on by itself: to its
    end, or to a [lock()] on a lock that is held. It yields the lock events
    of the run, in order, and the state of the locks and of the world as the
    run leaves them. *)
Fixpoint exec {A} (pid : nat) (p : Proc A) (s : CrossProcessLock.State) (w : World)
    : list CrossProcessLock.Event * Status A * CrossProcessLock.State * World :=
  match p with
  | Halt o => ([], Finished o, s, w)
  | TryLock n k =>
      let '(b, s') := CrossProcessLock.tryLock pid n s in
      let '(evs, st, s'', w') := exec pid (k b) s' w in
      (CrossProcessLock.TryLocked pid n b :: evs, st, s'', w')
  | Lock n k =>
      match CrossProcessLock.lock pid n s with
      | Some s' =>
          let '(evs, st, s'', w') := exec pid k s' w in
          (CrossProcessLock.Locked pid n :: evs, st, s'', w')
      | None => ([], Waiting n k, s, w)
      end
  | Unlock n k =>
      let '(evs, st, s'', w') := exec pid k (CrossProcessLock.unlock pid n s) w in
      (CrossProcessLock.Unlocked pid n :: evs, st, s'', w')
  | Local f =>
      let '(w', k) := f w in exec pid k s w'
  end.

(** A process that waits goes on from its [lock()] when it is run again. *)
Definition resume {A} (pid : nat) (st : Status A) (s : CrossProcessLock.State) (w : World)
    : list CrossProcessLock.Event * Status A * CrossProcessLock.State * World :=
  match st with
  | Finished o => ([], Finished o, s, w)
  | Waiting n k => exec pid (Lock n k) s w
  end.

(** ** Comparators *)

(** A consistent comparator, as Array.prototype.sort asks for: [b] is after
    [a] exactly when [a] is before [b], and "not after" is transitive. *)
Definition consistent {A} (compareFn : A → A → Z) : Prop :=
  (∀ a b, (0 < compareFn a b)%Z ↔ (compareFn b a < 0)%Z) ∧
  (∀ a b c, (compareFn a b ≤ 0)%Z → (compareFn b c ≤ 0)%Z → (compareFn a c ≤ 0)%Z).

Definition notAfter {A} (compareFn : A → A → Z) (a b : A) : Prop := (compareFn a b ≤ 0)%Z.

(** ** A concrete setting *)

(** A comparator to run the commands with: the order of the code units. *)
Fixpoint codeUnitCompare (a b : string) : Z :=
  match a, b with
  | EmptyString, EmptyString => 0
  | EmptyString, String _ _ => -1
  | String _ _, EmptyString => 1
  | String x a', String y b' =>
      let d := (Z.of_N (N_of_ascii x) - Z.of_N (N_of_ascii y))%Z in
      if (d =? 0)%Z then codeUnitCompare a' b' else d
  end.

(** The two spellings of "e with acute" in UTF-8: the letter U+00E9, and the
    letter e followed by the combining accent U+0301. *)
Definition e_acute_composed : string :=
  String (ascii_of_nat 195) (String (ascii_of_nat 169) EmptyString).
Definition e_acute_decomposed : string :=
  String "e" (String (ascii_of_nat 204) (String (ascii_of_nat 129) EmptyString)).

(** Canonical composition, for this one letter. *)
Fixpoint compose (s : string) : string :=
  match s with
  | EmptyString => EmptyString
  | String c rest =>
      match rest with
      | String c1 (String c2 rest') =>
          if Ascii.eqb c "e" && Ascii.eqb c1 (ascii_of_nat 204)
             && Ascii.eqb c2 (ascii_of_nat 129)
          then String (ascii_of_nat 195) (String (ascii_of_nat 169) (compose rest'))
          else String c (compose rest)
      | _ => String c (compose rest)
      end
  end.

(** A collation which honours canonical equivalence, as [localeCompare] does:
    strings which are canonically equivalent compare as equal, also when
    they are distinguishable. *)
Definition canonicalCompare (a b : string) : Z :=
  codeUnitCompare (compose a) (compose b).

(** Two errors of one kind about two files whose names differ in the
    spelling of one letter. *)
Definition demo_composed : ValidationError :=
  mkValidationError "outOfDate" ("src/caf" +:+ e_acute_composed +:+ ".js").
Definition demo_decomposed : ValidationError :=
  mkValidationError "outOfDate" ("src/caf" +:+ e_acute_decomposed +:+ ".js").

Definition demo_name : string := "react-native-platform-override".

(** An empty world, on an interactive terminal; and the same on a stream
    which is not one, as when the output is piped. *)
Definition demo_world : World := mkWorld [] [] None [] ∅ true.

Definition demo_piped : World := mkWorld [] [] None [] ∅ false.

Definition demo_errors : list ValidationError :=
  [ mkValidationError "outOfDate" "src/b.windows.js";
    mkValidationError "overrideNotFound" "src/z.windows.js";
    mkValidationError "outOfDate" "src/a.windows.js" ].

(** The validation which finds [demo_errors]. *)
Definition demo_validation (opts : ValidateOpts) (w : World) : Exn + list ValidationError :=
  inr demo_errors.

(** A tree with one manifest, in which paths are taken as they are given. *)
Definition demo_dirname (p : string) : string := "/repo".

Definition demo_resolve (p : string) : string := p.

Definition demo_relative (dir p : string) : string := p.

Definition demo_findManifest (dir : string) : Exn + string := inr "/repo/overrides.json".

Definition demo_details : OverrideDetails :=
  mkOverrideDetails "patch" (Some "Libraries/Foo.js") None (Some "windows fix").

Definition demo_override : Override :=
  mkOverride "src/Foo.windows.js" "copy" (Some "Libraries/Foo.js") "0.61.0" None None.

Definition demo_tree : World :=
  mkWorld [] [] None [demo_override] {[ "src/Foo.windows.js" := "ours" ]} true.

(** An upstream with two releases of the base file, and a merge which takes
    the side that changed and marks a conflict when both did. *)
Definition demo_upstream (base version : string) : option string :=
  if String.eqb version "0.61.0" then Some "old"
  else if String.eqb version "0.62.0" then Some "new"
  else None.

Definition demo_merge3 (oldBase newBase ours : string) : string * bool :=
  if String.eqb ours oldBase then (newBase, false)
  else if String.eqb newBase oldBase then (ours, false)
  else ("<<<<<<< " +:+ ours +:+ " ======= " +:+ newBase +:+ " >>>>>>>", true).

(** ** The commands *)

Section Cli.

#[local] Set Default Proof Using "Type".

(** [(await getNpmPackage()).name]: the name in the package.json of the tool.
    PackageUtils.ts is not part of the sources; the call is taken to succeed,
    as it has already done in [doMain] when a command runs. *)
Variable npmPackage_name : string.

(** [a.localeCompare(b, 'en')]: negative, zero or positive. The collation is
    the JavaScript engine's. *)
Variable localeCompare : string → string → Z.

Definition getNpmPackage : M string := mret npmPackage_name.

(** Print validation errors of a specific type. The array [errors] is
    mutated by [_.remove]; the function returns it as it is left. *)
Definition printErrorType (type_ : string) (errors : list ValidationError)
    (message : string) : M (list ValidationError) :=
  let '(filteredErrors, errors) := lodash_remove (λ err, String.eqb (type err) type_) errors in
  let filteredErrors :=
    Array_sort (λ a b, localeCompare (overrideName a) (overrideName b)) filteredErrors in
  (if (0 <? length filteredErrors)%nat then
     console_error (Some (chalk red message));;
     foldr (λ err rest, console_error (Some (plain (" - " +:+ overrideName err)));; rest)
           (mret tt) filteredErrors;;
     console_error None
   else mret tt);;
  mret errors.

(** Prints validation errors in a user-readable form to stderr. *)
Definition printValidationErrors (validationErrors : list ValidationError) : M unit :=
  if (length validationErrors =? 0)%nat then mret tt else
  npmPackage ← getNpmPackage;
  let errors := lodash_clone validationErrors in
  console_error None;;
  errors ← printErrorType "missingFromManifest" errors
    ("Found override files that aren't listed in the manifest. Overrides can be added to the manifest by using 'npx "
       +:+ npmPackage +:+ " add <override>':");
  errors ← printErrorType "overrideNotFound" errors
    ("Found overrides in the manifest that don't exist on disk. Remove existing overrides using 'npx "
       +:+ npmPackage +:+ " remove <override>':");
  errors ← printErrorType "baseNotFound" errors
    ("Found overrides whose base files do not exist. Remove existing overrides using 'npx "
       +:+ npmPackage +:+ " remove <override>':");
  errors ← printErrorType "outOfDate" errors
    ("Found overrides whose original files have changed. Upgrade overrides using 'npx "
       +:+ npmPackage +:+ " upgrade:");
  errors ← printErrorType "overrideDifferentFromBase" errors
    "The following overrides should be an exact copy of their base files. Ensure overrides are up to date or revert changes:";
  errors ← printErrorType "overrideSameAsBase" errors
    ("The following overrides are identical to their base files. Please remove them or set their type to "
       +:+ dquote +:+ "copy" +:+ dquote +:+ ":");
  errors ← printErrorType "expectedFile" errors
    "The following overrides should operate on files, but list directories:";
  errors ← printErrorType "expectedDirectory" errors
    "The following overrides should operate on directories, but listed files:";
  if negb (length errors =? 0)%nat then
    throw (Error ("Unprinted errors present:" +:+ newline +:+ Array_toString errors))
  else mret tt.

(** Print statistics about an attempt to upgrade out-of-date overrides. *)
Definition printUpgradeStats (results : list UpgradeResult) (allowConflicts : bool) : M unit :=
  let numTotal := Z.of_nat (length results) in
  let numConflicts := Z.of_nat (length (List.filter hasConflicts results)) in
  let numAutoPatched := (numTotal - numConflicts)%Z in
  (if (numTotal =? 0)%Z then
     console_log (chalk greenBright "No out-of-date overrides detected")
   else
     console_log (chalk greenBright
       (pretty numAutoPatched +:+ "/" +:+ pretty numTotal
          +:+ " out-of-date overrides automatically merged")));;
  if allowConflicts && (0 <? numConflicts)%Z then
    console_log (chalk yellowBright
      (pretty numConflicts +:+ " overrides require manual resolution"))
  else mret tt.

(** Wraps the function in a try/catch, failing the spinner if an exception
    is thrown to allow unmangled output. *)
Definition spinnerGuard {T} (spinner : nat) (fn : M T) : M T :=
  try_catch fn (λ ex,
    spinning ← ora_isSpinning spinner;
    (if spinning : bool then ora_fail spinner else mret tt);;
    (throw ex : M T)).

(** *** validate *)

(** A collaborator that reads the world and either fails or answers. *)
Definition ask {A} (f : World → Exn + A) : M A :=
  λ w, match f w with inl ex => (Thrown ex, w) | inr a => (Returned a, w) end.

(** [Api.validateManifest(opts)]: Api.ts is not part of the sources. The
    validation reads the manifest and the file system and changes neither;
    it answers with its list of findings or fails. *)
Variable Api_validateManifest : ValidateOpts → World → Exn + list ValidationError.

(** Check that the given manifest correctly describes overrides and that all
    overrides are up to date. *)
Definition validateManifest (opts : ValidateOpts) : M unit :=
  spinner ← ora_start "Validating overrides";
  spinnerGuard spinner (
    validationErrors ← ask (Api_validateManifest opts);
    if (length validationErrors =? 0)%nat then
      ora_succeed spinner
    else
      ora_fail spinner;;
      printValidationErrors validationErrors;;
      process_set_exitCode 1).

(** *** The manifest API *)

(** Modelled from the spec: Manifest.ts and Api.ts are not part of the
    sources. The manifest is an ordered collection of entries keyed by
    [overrideName]; [has] tells whether an entry of that name is listed. *)
Definition Manifest_has (overrideName : string) (m : list Override) : bool :=
  existsb (λ e, String.eqb (name e) overrideName) m.

(** Modelled from the spec: Manifest.ts is not part of the sources.
    [remove(overrideName) -> bool]: true if an entry existed and was removed,
    false otherwise. The pair is the answer and the manifest as it is left. *)
Fixpoint Manifest_remove (overrideName : string) (m : list Override) : bool * list Override :=
  match m with
  | [] => (false, [])
  | e :: m' =>
      if String.eqb (name e) overrideName then (true, m')
      else let '(removed, rest) := Manifest_remove overrideName m' in (removed, e :: rest)
  end.

(** Modelled from the spec: Manifest.ts is not part of the sources.
    [add(entry)]: inserts or replaces (by [overrideName]); a new entry goes to
    the end, a replaced one keeps its place. *)
Fixpoint Manifest_add (entry : Override) (m : list Override) : list Override :=
  match m with
  | [] => [entry]
  | e :: m' =>
      if String.eqb (name e) (name entry) then entry :: m'
      else e :: Manifest_add entry m'
  end.

(** Modelled from the spec: Api.ts is not part of the sources. Each call
    loads the one manifest of the world, found at [manifestPath], works on it
    and saves it. *)
Definition Api_hasOverride (overrideName manifestPath : string) : M bool :=
  gets (λ w, Manifest_has overrideName (manifest w)).

(** Modelled from the spec: Api.ts is not part of the sources. *)
Definition Api_removeOverride (overrideName manifestPath : string) : M bool :=
  m ← gets manifest;
  let '(removed, m') := Manifest_remove overrideName m in
  (if removed : bool then modify (set_manifest (λ _, m')) else mret tt);;
  mret removed.

(** Modelled from the spec: Api.ts is not part of the sources. *)
Definition Api_addOverride (override : Override) (manifestPath : string) : M unit :=
  modify (set_manifest (Manifest_add override)).

(** Node's [path] module and FileSearch.ts: pure computations on paths, and
    the search for the nearest manifest, which fails when there is none. *)
Variable path_dirname : string → string.
Variable path_resolve : string → string.
Variable path_relative : string → string → string.
Variable findManifest : string → Exn + string.

(** The React Native version found installed, used when a command names none. *)
Variable installedVersion : string.

Variable promptForOverrideDetails : Exn + OverrideDetails.

(** Modelled from the spec: Api.ts is not part of the sources. *)
Definition Api_getOverrideFactory (manifestPath : string) : M OverrideFactory :=
  mret (mkOverrideFactory (path_dirname manifestPath) installedVersion).

(** Modelled from the spec: OverridePrompt.ts is not part of the sources. The
    new entry is named by the path of the override relative to the manifest's
    directory, carries the prompted metadata and is based on the current
    upstream version. *)
Definition overrideFromDetails (overridePath : string) (details : OverrideDetails)
    (factory : OverrideFactory) : M Override :=
  mret (mkOverride
          (path_relative (factory_manifestDir factory) (path_resolve overridePath))
          (details_type details) (details_baseFile details) (factory_version factory)
          (details_issue details) (details_comment details)).

(** *** add *)

(** Add an override to the manifest. *)
Definition addOverride (overridePath : string) : M unit :=
  manifestPath ← ask (λ _, findManifest (path_dirname overridePath));
  let manifestDir := path_dirname manifestPath in
  let overrideName := path_relative manifestDir (path_resolve overridePath) in
  listed ← Api_hasOverride overrideName manifestPath;
  (if listed : bool then
     console_warn (chalk yellow
       "Warning: override already exists in manifest and will be overwritten")
   else mret tt);;
  overrideDetails ← ask (λ _, promptForOverrideDetails);
  spinner ← ora_start "Adding override";
  spinnerGuard spinner (
    factory ← Api_getOverrideFactory manifestPath;
    override ← overrideFromDetails overridePath overrideDetails factory;
    Api_removeOverride overrideName manifestPath;;
    Api_addOverride override manifestPath;;
    ora_succeed spinner).

(** *** remove *)

(** Remove an override from the manifest. *)
Definition removeOverride (overridePath : string) : M unit :=
  manifestPath ← ask (λ _, findManifest (path_dirname overridePath));
  let manifestDir := path_dirname manifestPath in
  let overrideName := path_relative manifestDir (path_resolve overridePath) in
  removed ← Api_removeOverride overrideName manifestPath;
  if removed : bool then
    console_log (chalk greenBright "Override successfully removed")
  else
    console_error (Some (chalk red "Could not remove override. Is it part of the manifest?"));;
    process_exit 1.

(** *** The upgrade engine *)

(** The upstream content provider, [(baseFile, version) -> bytes], which has
    no answer when the base does not exist at that version; and the three-way
    merge capability, [(oldBase, newBase, ours) -> (merged, hasConflicts)]. *)
Variable upstream : string → string → option string.
Variable merge3 : string → string → string → string * bool.

(** Modelled from the spec: ValidationStrategy.ts is not part of the sources.
    An entry is out of date when its [baseVersion] differs from the active
    upstream version and the content of its base differs between the two. *)
Definition outOfDate (version : string) (e : Override) : bool :=
  match baseFile e with
  | None => false
  | Some base =>
      negb (String.eqb (baseVersion e) version) &&
      match upstream base (baseVersion e), upstream base version with
      | Some old, Some new => negb (String.eqb old new)
      | _, _ => false
      end
  end.

Definition fetch {A} (o : option A) (ex : Exn) : M A :=
  match o with Some a => mret a | None => throw ex end.

Definition setBaseVersion (overrideName version : string) (m : list Override) : list Override :=
  map (λ e, if String.eqb (name e) overrideName
            then mkOverride (name e) (kind e) (baseFile e) version (issue e) (comment e)
            else e) m.

(** Modelled from the spec: UpgradeStrategy.ts and Api.ts are not part of the
    sources. For each stale entry, in the manifest's order: tell the progress
    listener (whose failure is ignored), fetch the old base, the new base and
    the override, merge them; when the merge has conflicts and conflicts are
    not allowed, write nothing; otherwise write the merged content and record
    the new base version in the manifest [m] being built. Every entry
    processed gives one result. *)
Fixpoint upgradeEach (version : string) (allowed : bool) (onProgress : nat → nat → M unit)
    (total current : nat) (stale : list Override) (m : list Override)
    : M (list UpgradeResult * list Override) :=
  match stale with
  | [] => mret ([], m)
  | e :: rest =>
      try_catch (onProgress current total) (λ _, mret tt);;
      base ← fetch (baseFile e) (Error "BaseNotFound");
      oldBase ← fetch (upstream base (baseVersion e)) (Error "BaseNotFound");
      newBase ← fetch (upstream base version) (Error "BaseNotFound");
      ours ← (w ← gets files; fetch (w !! name e) (Error "OverrideNotFound"));
      let '(merged, conflicts) := merge3 oldBase newBase ours in
      m ← (if (conflicts : bool) && negb allowed then mret m
           else
             modify (set_files <[name e := merged]>);;
             mret (setBaseVersion (name e) version m));
      '(results, m) ← upgradeEach version allowed onProgress total (S current) rest m;
      mret (mkUpgradeResult (name e) conflicts :: results, m)
  end.

(** Modelled from the spec: Api.ts is not part of the sources. The manifest is
    loaded, the entries the validation finds out of date are upgraded, and the
    manifest is saved once, after all of them. *)
Definition Api_upgradeOverrides (opts : UpgradeOpts) (progressListener : nat → nat → M unit)
    : M (list UpgradeResult) :=
  let version := default installedVersion (reactNativeVersion opts) in
  m ← gets manifest;
  let stale := List.filter (outOfDate version) m in
  '(results, m) ← upgradeEach version (allowConflicts opts) progressListener
                     (length stale) 1 stale m;
  modify (set_manifest (λ _, m));;
  mret results.

(** *** upgrade *)

(** Attempts to automatically merge changes from the current version into
    out-of-date overrides. *)
Definition upgrade (opts : UpgradeOpts) : M unit :=
  spinner ← ora_start "Merging overrides";
  spinnerGuard spinner (
    upgradeResults ← Api_upgradeOverrides opts (λ currentOverride totalOverrides,
      ora_set_text spinner
        ("Merging overrides (" +:+ pretty currentOverride +:+ "/"
           +:+ pretty totalOverrides +:+ ")"));
    ora_succeed spinner;;
    printUpgradeStats upgradeResults (allowConflicts opts)).

(** *** The command line *)

(** The options of the four commands, as the builders declare them. *)
Definition validate_options : list (string * YargsOption) :=
  [ ("manifest", mkYargsOption "string" None
       "Optional path to the override manifest to validate");
    ("version", mkYargsOption "string" None
       "Optional React Native version to check against") ].
Definition add_options : list (string * YargsOption) :=
  [ ("override", mkYargsOption "string" None "The override to add") ].
Definition remove_options : list (string * YargsOption) :=
  [ ("override", mkYargsOption "string" None "The override to remove") ].
Definition upgrade_options : list (string * YargsOption) :=
  [ ("manifest", mkYargsOption "string" None
       "Optional path to the override manifests to validate");
    ("conflicts", mkYargsOption "boolean" (Some (ArgBoolean true))
       "Whether to allow merge conflicts to be written");
    ("version", mkYargsOption "string" None
       "Optional React Native version to check against") ].

(** [cmdArgv.key]: the value given on the command line, else the default the
    option declares, else undefined. *)
Definition cmdArgv (options : list (string * YargsOption)) (given : gmap string ArgValue)
    (key : string) : option ArgValue :=
  match given !! key with
  | Some v => Some v
  | None => '(_, o) ← list_find (λ ko, ko.1 = key) options; option_default o.2
  end.

Definition as_string (v : option ArgValue) : option string :=
  match v with Some (ArgString s) => Some s | _ => None end.
Definition as_boolean (v : option ArgValue) : bool :=
  match v with Some (ArgBoolean b) => b | _ => false end.

Definition validate_handler (given : gmap string ArgValue) : M unit :=
  let argv := cmdArgv validate_options given in
  validateManifest (mkValidateOpts (as_string (argv "manifest")) (as_string (argv "version"))).
Definition add_handler (given : gmap string ArgValue) : M unit :=
  let argv := cmdArgv add_options given in
  addOverride (default "" (as_string (argv "override"))).
Definition remove_handler (given : gmap string ArgValue) : M unit :=
  let argv := cmdArgv remove_options given in
  removeOverride (default "" (as_string (argv "override"))).
Definition upgrade_argv (given : gmap string ArgValue) : UpgradeOpts :=
  let argv := cmdArgv upgrade_options given in
  mkUpgradeOpts (as_string (argv "manifest")) (as_string (argv "version"))
                (as_boolean (argv "conflicts")).
Definition upgrade_handler (given : gmap string ArgValue) : M unit :=
  upgrade (upgrade_argv given).

(** *** doMain *)

(** Wrap the main function around a barrier to ensure only one copy of the
    override tool is running at once. This is needed to avoid multiple tools
    accessing the same local Git repo at the same time. *)
Definition doMain (fn : M unit) : Proc unit :=
  npmPackage ← await getNpmPackage;
  let lock := npmPackage +:+ "-cli-lock" in
  acquired ← lock_tryLock lock;
  (if negb acquired then
     spinner ← await (ora_start "Waiting for other instances of the override CLI to finish");
     lock_lock lock;;
     await (ora_stop spinner)
   else mret tt);;
  await fn;;
  lock_unlock lock.

(** ** The vocabulary of the properties *)

(** The world with [out] written to the console. *)
Definition emit (out : list Output) (w : World) : World :=
  set_console (λ o, o ++ out) w.

(** The lines of a group: one per error, in the order of the list. *)
Definition item (err : ValidationError) : Output :=
  Err (Some (plain (" - " +:+ overrideName err))).

(** The closed taxonomy of validation errors, in the order they are printed,
    each with the message its group is printed under. *)
Definition messages : list (string * string) :=
  [ ("missingFromManifest",
     "Found override files that aren't listed in the manifest. Overrides can be added to the manifest by using 'npx "
       +:+ npmPackage_name +:+ " add <override>':");
    ("overrideNotFound",
     "Found overrides in the manifest that don't exist on disk. Remove existing overrides using 'npx "
       +:+ npmPackage_name +:+ " remove <override>':");
    ("baseNotFound",
     "Found overrides whose base files do not exist. Remove existing overrides using 'npx "
       +:+ npmPackage_name +:+ " remove <override>':");
    ("outOfDate",
     "Found overrides whose original files have changed. Upgrade overrides using 'npx "
       +:+ npmPackage_name +:+ " upgrade:");
    ("overrideDifferentFromBase",
     "The following overrides should be an exact copy of their base files. Ensure overrides are up to date or revert changes:");
    ("overrideSameAsBase",
     "The following overrides are identical to their base files. Please remove them or set their type to "
       +:+ dquote +:+ "copy" +:+ dquote +:+ ":");
    ("expectedFile",
     "The following overrides should operate on files, but list directories:");
    ("expectedDirectory",
     "The following overrides should operate on directories, but listed files:") ].

Definition taxonomy : list string := messages.*1.

Definition ofType (k : string) (err : ValidationError) : bool := String.eqb (type err) k.

(** The errors of one kind, in the order they are printed. *)
Definition group (k : string) (errs : list ValidationError) : list ValidationError :=
  Array_sort (λ a b, localeCompare (overrideName a) (overrideName b))
             (List.filter (ofType k) errs).

(** What is printed for one kind: nothing when there is no error of the kind,
    else the message, a line for each error of the kind, and an empty line. *)
Definition block (k message : string) (errs : list ValidationError) : list Output :=
  match group k errs with
  | [] => []
  | g => Err (Some (chalk red message)) :: (item <$> g) ++ [Err None]
  end.

(** What is printed for a list of errors: an empty line, then the blocks. *)
Definition report (errs : list ValidationError) : list Output :=
  match errs with
  | [] => []
  | _ => Err None :: (messages ≫= λ km, block km.1 km.2 errs)
  end.

(** The errors of no kind of the taxonomy. *)
Definition unprinted (kinds : list string) (errs : list ValidationError) : list ValidationError :=
  List.filter (λ err, negb (existsb (String.eqb (type err)) kinds)) errs.

(** The name a line of a group shows. *)
Definition shown (o : Output) : option string :=
  match o with
  | Err (Some (plain (String " "%char (String "-"%char (String " "%char n))))) => Some n
  | _ => None
  end.

(** The calls of [printErrorType] that [printValidationErrors] makes in a
    row, as one pass over a table of kinds and messages, followed by [k]. *)
Fixpoint printAll {B} (table : list (string * string)) (errors : list ValidationError)
    (k : list ValidationError → M B) : M B :=
  match table with
  | [] => k errors
  | (kd, message) :: table' =>
      errors ← printErrorType kd errors message; printAll table' errors k
  end.

(** What [ora(text).start()] writes: nothing that stays on an interactive
    terminal, the line "- text" elsewhere. *)
Definition startLine (t : string) (w : World) : list Output :=
  if interactive w then [] else [Dash t].

(** The world once [ora(text).start()] has run: the spinner spins exactly
    when the stream is interactive. *)
Definition started (t : string) (w : World) : World :=
  mkWorld (console w ++ startLine t w) (spinners w ++ [mkOra t (interactive w)])
          (exitCode w) (manifest w) (files w) (interactive w).

(** The world once the spinner of [started t w] has been ended, [out] being
    what was printed since. *)
Definition ended (t : string) (out : list Output) (w : World) : World :=
  mkWorld (console w ++ startLine t w ++ out) (spinners w ++ [mkOra t false]) (exitCode w)
          (manifest w) (files w) (interactive w).

(** How many entries of a manifest carry a name. *)
Definition count_named (n : string) (m : list Override) : nat :=
  length (List.filter (λ e, String.eqb (name e) n) m).

(** What the add command does to the manifest: the entry of the name goes,
    the new entry comes. *)
Definition readded (override : Override) (m : list Override) : list Override :=
  Manifest_add override (Manifest_remove (name override) m).2.

Definition removed_message : Output :=
  Log (chalk greenBright "Override successfully removed").

Definition not_removed_message : Output :=
  Err (Some (chalk red "Could not remove override. Is it part of the manifest?")).

Definition overwrite_warning : Output :=
  Warn (chalk yellow "Warning: override already exists in manifest and will be overwritten").

(** The entry the add command makes of the answers to its prompt. *)
Definition prompted (overridePath manifestPath : string) (details : OverrideDetails) : Override :=
  mkOverride (path_relative (path_dirname manifestPath) (path_resolve overridePath))
             (details_type details) (details_baseFile details) installedVersion
             (details_issue details) (details_comment details).

(** What the merge of an entry gives, when its three contents can be fetched:
    the merged content and whether it has conflicts. *)
Definition merged_of (version : string) (fs : gmap string string) (e : Override)
    : option (string * bool) :=
  match baseFile e with
  | None => None
  | Some base =>
      match upstream base (baseVersion e), upstream base version, fs !! name e with
      | Some oldBase, Some newBase, Some ours => Some (merge3 oldBase newBase ours)
      | _, _, _ => None
      end
  end.

(** The merge of the entry reports conflicts. *)
Definition conflicting (version : string) (fs : gmap string string) (e : Override) : Prop :=
  ∃ merged, merged_of version fs e = Some (merged, true).

(** A progress listener which leaves the files and the manifest alone. *)
Definition quiet (onProgress : nat → nat → M unit) : Prop :=
  ∀ current total w,
    files (onProgress current total w).2 = files w
    ∧ manifest (onProgress current total w).2 = manifest w.

(** The rest of a pass of [upgradeEach] once the merge of its first entry is
    known. *)
Definition upgradeRest (version : string) (allowed : bool) (onProgress : nat → nat → M unit)
    (total current : nat) (e : Override) (rest m : list Override) (merged : string)
    (conflicts : bool) (w : World) : Outcome (list UpgradeResult * list Override) * World :=
  let '(m1, w1) :=
    if conflicts && negb allowed then (m, w)
    else (setBaseVersion (name e) version m, set_files <[name e := merged]> w) in
  match upgradeEach version allowed onProgress total (S current) rest m1 w1 with
  | (Returned (results, m'), w') =>
      (Returned (mkUpgradeResult (name e) conflicts :: results, m'), w')
  | (Thrown ex, w') => (Thrown ex, w')
  | (Exited c, w') => (Exited c, w')
  end.

(** The progress listener of the upgrade command. *)
Definition progress (spinner currentOverride totalOverrides : nat) : M unit :=
  ora_set_text spinner
    ("Merging overrides (" +:+ pretty currentOverride +:+ "/"
       +:+ pretty totalOverrides +:+ ")").

(** The version an upgrade is made against, and the entries it finds stale. *)
Definition target (opts : UpgradeOpts) : string :=
  default installedVersion (reactNativeVersion opts).

Definition stale_of (opts : UpgradeOpts) (w : World) : list Override :=
  List.filter (outOfDate (target opts)) (manifest w).

(** What [printUpgradeStats] prints. *)
Definition stats (results : list UpgradeResult) (allowed : bool) : list Output :=
  let numTotal := Z.of_nat (length results) in
  let numConflicts := Z.of_nat (length (List.filter hasConflicts results)) in
  Log (chalk greenBright
         (if (numTotal =? 0)%Z then "No out-of-date overrides detected"
          else pretty (numTotal - numConflicts)%Z +:+ "/" +:+ pretty numTotal
                 +:+ " out-of-date overrides automatically merged"))
  :: (if allowed && (0 <? numConflicts)%Z
      then [Log (chalk yellowBright
                   (pretty numConflicts +:+ " overrides require manual resolution"))]
      else []).

Definition lockName : string := npmPackage_name +:+ "-cli-lock".

Definition waiting_text : string :=
  "Waiting for other instances of the override CLI to finish".

(** What is left of [doMain] once the lock is held: the command, then the
    release of the lock. *)
Definition critical (fn : M unit) : Proc unit :=
  await fn;; lock_unlock lockName.

(** The stream a line is written to. *)
Definition isErr (o : Output) : bool :=
  match o with Err _ => true | _ => false end.
Definition isLog (o : Output) : bool :=
  match o with Log _ => true | _ => false end.

(** The line a block starts with. *)
Definition header (message : string) : Output := Err (Some (chalk red message)).

(** The message a line shows, when the line is the first of a block. *)
Definition heading (o : Output) : option string :=
  match o with
  | Err (Some (chalk red message)) => Some message
  | _ => None
  end.

(** The kinds of the taxonomy of which a list holds an error, with their
    messages. *)
Definition present (errs : list ValidationError) : list (string * string) :=
  List.filter (λ km, existsb (ofType km.1) errs) messages.

(** The events of the lock that [doMain] run by [pid] can give. *)
Definition ownEvents (pid : nat) : list CrossProcessLock.Event :=
  [ CrossProcessLock.TryLocked pid lockName true;
    CrossProcessLock.TryLocked pid lockName false;
    CrossProcessLock.Locked pid lockName;
    CrossProcessLock.Unlocked pid lockName ].

(** * Properties *)

(** ** Running commands *)

Lemma emit_nil w : emit [] w = w.
Proof. destruct w; unfold emit, set_console; simpl. by rewrite app_nil_r. Qed.

Lemma emit_emit a b w : emit b (emit a w) = emit (a ++ b) w.
Proof. unfold emit, set_console; simpl. by rewrite app_assoc. Qed.

Lemma bind_run {A B} (m : M A) (k : A → M B) w :
  (m ≫= k) w = match m w with
               | (Returned a, w') => k a w'
               | (Thrown ex, w') => (Thrown ex, w')
               | (Exited c, w') => (Exited c, w')
               end.
Proof. reflexivity. Qed.

Lemma bind_returned {A B} (m : M A) (k : A → M B) w a w' :
  m w = (Returned a, w') → (m ≫= k) w = k a w'.
Proof. intros H. by rewrite bind_run, H. Qed.

Lemma console_error_run t w : console_error t w = (Returned tt, emit [Err t] w).
Proof. reflexivity. Qed.

Lemma forEach_run (l : list ValidationError) w :
  foldr (λ err rest, console_error (Some (plain (" - " +:+ overrideName err)));; rest)
        (mret tt) l w
  = (Returned tt, emit (item <$> l) w).
Proof.
  revert w. induction l as [|e l IH]; intros w; simpl.
  - by rewrite emit_nil.
  - rewrite bind_run, console_error_run, IH, emit_emit. reflexivity.
Qed.

(** ** Sorting *)

Section Sort.
Context {A : Type} (compareFn : A → A → Z).

Lemma sort_insert_Permutation x l : sort_insert compareFn x l ≡ₚ x :: l.
Proof.
  induction l as [|y l IH]; simpl; [done|].
  destruct (0 <? compareFn x y)%Z; [|done].
  rewrite IH. apply Permutation_swap.
Qed.

Lemma Array_sort_Permutation l : Array_sort compareFn l ≡ₚ l.
Proof.
  induction l as [|x l IH]; simpl; [done|].
  unfold Array_sort in *; simpl. by rewrite sort_insert_Permutation, IH.
Qed.

Lemma Array_sort_length l : length (Array_sort compareFn l) = length l.
Proof. by rewrite Array_sort_Permutation. Qed.

Lemma sort_insert_HdRel x y l :
  (notAfter compareFn) y x → HdRel (notAfter compareFn) y l → HdRel (notAfter compareFn) y (sort_insert compareFn x l).
Proof.
  intros Hyx Hl. destruct l as [|z l]; simpl; [by constructor|].
  destruct (0 <? compareFn x z)%Z; constructor; [by inv Hl|done].
Qed.

Lemma sort_insert_Sorted x l :
  consistent compareFn → Sorted (notAfter compareFn) l → Sorted (notAfter compareFn) (sort_insert compareFn x l).
Proof.
  intros [Hsym _]. induction 1 as [|y l Hl IH Hhd]; simpl.
  - repeat constructor.
  - destruct (0 <? compareFn x y)%Z eqn:E.
    + apply Z.ltb_lt in E. constructor; [done|].
      apply sort_insert_HdRel; [|done]. apply Hsym in E. unfold notAfter. lia.
    + apply Z.ltb_ge in E. repeat constructor; done.
Qed.

Lemma Array_sort_Sorted l : consistent compareFn → Sorted (notAfter compareFn) (Array_sort compareFn l).
Proof.
  intros Hc. induction l as [|x l IH]; [constructor|].
  by apply sort_insert_Sorted.
Qed.

(** Sorting forgets the order of the input, when the comparator tells the
    elements of the input apart. *)
Lemma Array_sort_unique l1 l2 :
  consistent compareFn →
  (∀ a b, a ∈ l1 → b ∈ l1 → compareFn a b = 0%Z → a = b) →
  l1 ≡ₚ l2 → Array_sort compareFn l1 = Array_sort compareFn l2.
Proof.
  intros Hc Hsep Hp.
  apply (StronglySorted_unique_strong (notAfter compareFn)).
  - intros a b Ha Hb Hab Hba.
    rewrite Array_sort_Permutation in Ha. rewrite Array_sort_Permutation, <-Hp in Hb.
    apply Hsep; [done..|]. destruct Hc as [Hsym _]. unfold notAfter in *.
    destruct (Z.eq_dec (compareFn a b) 0) as [|Hne]; [done|].
    assert (compareFn a b < 0)%Z as Hlt by lia. apply Hsym in Hlt. lia.
  - apply Sorted.Sorted_StronglySorted; [|by apply Array_sort_Sorted].
    intros a b c. apply Hc.
  - apply Sorted.Sorted_StronglySorted; [|by apply Array_sort_Sorted].
    intros a b c. apply Hc.
  - by rewrite !Array_sort_Permutation.
Qed.

End Sort.

(** Sorting by a key, then reading the key, is sorting the keys. *)
Lemma sort_insert_map {A B} (key : A → B) (cmp : B → B → Z) x l :
  key <$> sort_insert (λ a b, cmp (key a) (key b)) x l
  = sort_insert cmp (key x) (key <$> l).
Proof.
  induction l as [|y l IH]; csimpl; [done|].
  destruct (0 <? cmp (key x) (key y))%Z; csimpl; [by rewrite IH|done].
Qed.

Lemma Array_sort_map {A B} (key : A → B) (cmp : B → B → Z) l :
  key <$> Array_sort (λ a b, cmp (key a) (key b)) l = Array_sort cmp (key <$> l).
Proof.
  induction l as [|x l IH]; csimpl; [done|].
  unfold Array_sort in *; csimpl. by rewrite sort_insert_map, IH.
Qed.

(** ** Printing validation errors *)

Lemma printErrorType_run k errs message w :
  printErrorType k errs message w
  = (Returned (List.filter (λ err, negb (ofType k err)) errs), emit (block k message errs) w).
Proof.
  unfold printErrorType, lodash_remove, block, group.
  fold (ofType k).
  destruct (Array_sort _ (List.filter (ofType k) errs)) as [|e g] eqn:E.
  - cbn. by rewrite emit_nil.
  - rewrite bind_run.
    change (0 <? length (e :: g))%nat with true. cbv iota.
    rewrite !bind_run, console_error_run, !bind_run, forEach_run, console_error_run.
    rewrite !emit_emit. reflexivity.
Qed.

Lemma printValidationErrors_unfold errs w :
  printValidationErrors errs w
  = (if (length errs =? 0)%nat then mret tt else
       console_error None;;
       printAll messages errs (λ errors,
         if negb (length errors =? 0)%nat then
           throw (Error ("Unprinted errors present:" +:+ newline +:+ Array_toString errors))
         else mret tt)) w.
Proof. destruct errs; reflexivity. Qed.

Lemma filter_ofType_other k k' errs :
  k' ≠ k →
  List.filter (ofType k') (List.filter (λ err, negb (ofType k err)) errs)
  = List.filter (ofType k') errs.
Proof.
  intros Hne. induction errs as [|e errs IH]; simpl; [done|].
  destruct (ofType k e) eqn:Ek; simpl.
  - destruct (ofType k' e) eqn:Ek'; [|done].
    unfold ofType in Ek, Ek'. apply String.eqb_eq in Ek, Ek'. congruence.
  - destruct (ofType k' e); by rewrite IH.
Qed.

Lemma block_other k k' message errs :
  k' ≠ k →
  block k' message (List.filter (λ err, negb (ofType k err)) errs) = block k' message errs.
Proof. intros Hne. unfold block, group. by rewrite filter_ofType_other. Qed.

Lemma unprinted_cons k kinds errs :
  unprinted kinds (List.filter (λ err, negb (ofType k err)) errs) = unprinted (k :: kinds) errs.
Proof.
  unfold unprinted. induction errs as [|e errs IH]; simpl; [done|].
  unfold ofType at 1. destruct (type e =? k)%string; simpl; [done|].
  destruct (existsb _ kinds); simpl; by rewrite IH.
Qed.

Lemma unprinted_nil errs : unprinted [] errs = errs.
Proof.
  unfold unprinted. induction errs as [|e errs IH]; simpl; [done|].
  f_equal. exact IH.
Qed.

Lemma blocks_other kd (table : list (string * string)) errs :
  kd ∉ table.*1 →
  table ≫= (λ km, block km.1 km.2 (List.filter (λ err, negb (ofType kd err)) errs))
  = table ≫= (λ km, block km.1 km.2 errs).
Proof.
  induction table as [|[k' m'] table IH]; intros Hk; [done|].
  rewrite fmap_cons, not_elem_of_cons in Hk. destruct Hk as [Hne Hk].
  rewrite !bind_cons, IH by done. f_equal. by apply block_other.
Qed.

Lemma printAll_run {B} table errs (k : list ValidationError → M B) w :
  NoDup table.*1 →
  printAll table errs k w
  = k (unprinted table.*1 errs) (emit (table ≫= λ km, block km.1 km.2 errs) w).
Proof.
  revert errs w. induction table as [|[kd message] table IH]; intros errs w Hnd.
  - change (([] : list (string * string)).*1) with ([] : list string).
    rewrite unprinted_nil. change (k errs w = k errs (emit [] w)). by rewrite emit_nil.
  - rewrite fmap_cons in Hnd. apply NoDup_cons in Hnd as [Hk Hnd].
    change (printAll ((kd, message) :: table) errs k w)
      with ((printErrorType kd errs message ≫= λ errors, printAll table errors k) w).
    rewrite bind_run, printErrorType_run, IH, emit_emit, unprinted_cons by done.
    rewrite blocks_other by done. by rewrite fmap_cons, bind_cons.
Qed.

Lemma messages_NoDup : NoDup messages.*1.
Proof. cbn. compute_done. Qed.

(** What [printValidationErrors] does, whatever the errors: the report is
    printed, and the call throws exactly when an error is of no kind of the
    taxonomy. *)
Lemma printValidationErrors_run errs w :
  printValidationErrors errs w
  = (match unprinted taxonomy errs with
     | [] => Returned tt
     | rest => Thrown (Error ("Unprinted errors present:" +:+ newline +:+ Array_toString rest))
     end, emit (report errs) w).
Proof.
  rewrite printValidationErrors_unfold. destruct errs as [|e errs].
  - cbn. by rewrite emit_nil.
  - change (length (e :: errs) =? 0)%nat with false. cbv iota.
    rewrite bind_run, console_error_run, printAll_run, emit_emit
      by apply messages_NoDup.
    fold taxonomy. unfold report.
    destruct (unprinted taxonomy (e :: errs)); reflexivity.
Qed.

Lemma unprinted_known kinds errs :
  Forall (λ err, type err ∈ kinds) errs → unprinted kinds errs = [].
Proof.
  unfold unprinted. induction 1 as [|e errs He _ IH]; simpl; [done|].
  destruct (existsb (String.eqb (type e)) kinds) eqn:E; simpl; [done|].
  exfalso. apply not_true_iff_false in E. apply E, existsb_exists.
  exists (type e). split; [by apply list_elem_of_In|apply String.eqb_refl].
Qed.

Lemma shown_item err : shown (item err) = Some (overrideName err).
Proof. reflexivity. Qed.

Lemma shown_items (g : list ValidationError) :
  omap shown (item <$> g) = overrideName <$> g.
Proof.
  induction g as [|e g IH]; csimpl; [done|].
  by rewrite IH.
Qed.

(** A block shows the names of the errors of its kind, each once. *)
Lemma shown_block k message errs :
  omap shown (block k message errs) ≡ₚ overrideName <$> List.filter (ofType k) errs.
Proof.
  unfold block. pose proof (Array_sort_Permutation
    (λ a b, localeCompare (overrideName a) (overrideName b)) (List.filter (ofType k) errs)) as Hp.
  fold (group k errs) in Hp. rewrite <-Hp.
  destruct (group k errs) as [|e g]; [done|].
  change (omap shown (Err (Some (chalk red message)) :: (item <$> e :: g) ++ [Err None]))
    with (omap shown ((item <$> e :: g) ++ [Err None])).
  rewrite omap_app, shown_items. csimpl. by rewrite app_nil_r.
Qed.

Lemma filter_split {A} (p : A → bool) (l : list A) :
  List.filter p l ++ List.filter (λ x, negb (p x)) l ≡ₚ l.
Proof.
  induction l as [|x l IH]; simpl; [done|].
  destruct (p x); simpl; [by rewrite IH|].
  by rewrite <-Permutation_middle, IH.
Qed.

(** The kinds of a table without repetition split the errors of these kinds. *)
Lemma groups_split (table : list (string * string)) errs :
  NoDup table.*1 →
  Forall (λ err, type err ∈ table.*1) errs →
  table ≫= (λ km, List.filter (ofType km.1) errs) ≡ₚ errs.
Proof.
  revert errs. induction table as [|[k m] table IH]; intros errs Hnd Hin.
  - destruct errs as [|e errs]; [done|]. inv Hin. set_solver.
  - rewrite fmap_cons in Hnd, Hin. apply NoDup_cons in Hnd as [Hk Hnd].
    rewrite bind_cons.
    etrans; [|apply (filter_split (ofType k))].
    apply Permutation_app; [done|].
    rewrite <-(IH (List.filter (λ err, negb (ofType k err)) errs)); [|done|].
    + clear IH Hin Hnd. induction table as [|[k' m'] table IH]; [done|].
      rewrite fmap_cons, not_elem_of_cons in Hk. destruct Hk as [Hne Hk].
      rewrite !bind_cons, IH by done.
      by rewrite filter_ofType_other by done.
    + clear IH. induction Hin as [|e errs He _ IHe]; simpl; [done|].
      destruct (ofType k e) eqn:E; simpl; [done|].
      constructor; [|done]. apply elem_of_cons in He as [He|He]; [|done].
      unfold ofType in E. apply String.eqb_neq in E. done.
Qed.

Lemma shown_blocks (table : list (string * string)) errs :
  omap shown (table ≫= λ km, block km.1 km.2 errs)
  ≡ₚ overrideName <$> (table ≫= λ km, List.filter (ofType km.1) errs).
Proof.
  induction table as [|[k m] table IH]; [done|].
  rewrite !bind_cons, omap_app, fmap_app, IH. by rewrite shown_block.
Qed.

(** C6: when the type of every error is one of the eight kinds of the
    taxonomy, [printValidationErrors] returns without throwing (the
    "Unprinted errors present" branch is not taken) and prints the report:
    the blocks of the kinds, each under its message; the lines of the report
    show every error exactly once, and the lines of a block the errors of
    its kind. *)
Theorem printValidationErrors_prints_all_once errs w :
  Forall (λ err, type err ∈ taxonomy) errs →
  printValidationErrors errs w = (Returned tt, emit (report errs) w)
  ∧ omap shown (report errs) ≡ₚ overrideName <$> errs
  ∧ ∀ km, km ∈ messages →
      omap shown (block km.1 km.2 errs) ≡ₚ overrideName <$> List.filter (ofType km.1) errs.
Proof.
  intros Hknown. split; [|split].
  - by rewrite printValidationErrors_run, unprinted_known.
  - unfold report. destruct errs as [|e errs]; [done|].
    change (omap shown (Err None :: ?l)) with (omap shown l).
    rewrite shown_blocks, groups_split; [done|apply messages_NoDup|done].
  - intros km _. apply shown_block.
Qed.

(** ** The order of the errors *)

Lemma List_filter_Permutation {A} (p : A → bool) (l1 l2 : list A) :
  l1 ≡ₚ l2 → List.filter p l1 ≡ₚ List.filter p l2.
Proof.
  induction 1 as [|x l1 l2 _ IH|x y l|l1 l2 l3 _ IH1 _ IH2]; simpl.
  - done.
  - destruct (p x); by rewrite IH.
  - destruct (p x), (p y); try done. apply Permutation_swap.
  - by rewrite IH1.
Qed.

Lemma List_filter_elem_of {A} (p : A → bool) (l : list A) x :
  x ∈ List.filter p l → x ∈ l.
Proof. rewrite !list_elem_of_In, filter_In. by intros [? _]. Qed.

Lemma Array_toString_length {A} (l1 l2 : list A) :
  length l1 = length l2 → Array_toString l1 = Array_toString l2.
Proof.
  intros Hlen. unfold Array_toString. f_equal.
  revert l2 Hlen. induction l1 as [|x l1 IH]; intros [|y l2] Hlen; simplify_eq/=; [done|].
  f_equal. by apply IH.
Qed.

(** The names a group shows are the sorted names of the errors of its kind. *)
Lemma group_names k errs :
  overrideName <$> group k errs
  = Array_sort localeCompare (overrideName <$> List.filter (ofType k) errs).
Proof. unfold group. apply (Array_sort_map overrideName localeCompare). Qed.

(** A block is a function of the names its group shows. *)
Lemma block_names k message errs :
  block k message errs
  = match overrideName <$> group k errs with
    | [] => []
    | ns => Err (Some (chalk red message))
            :: ((λ n, Err (Some (plain (" - " +:+ n)))) <$> ns) ++ [Err None]
    end.
Proof.
  unfold block. destruct (group k errs) as [|e g]; [done|].
  csimpl. rewrite <-list_fmap_compose. reflexivity.
Qed.

(** C10, as the code has it: the output of [printValidationErrors] does not
    depend on the order of its input when [localeCompare] tells the override
    names of the errors apart. For a consistent [localeCompare] which returns
    0 only for equal names among the errors, two lists which are permutations
    of each other give the same outcome and the same console: the groups come
    in the order of the eight kinds, and the names of a group in the order of
    [localeCompare]. *)
Theorem printValidationErrors_order_independent l1 l2 w :
  consistent localeCompare →
  (∀ a b, a ∈ l1 → b ∈ l1 →
     localeCompare (overrideName a) (overrideName b) = 0%Z → overrideName a = overrideName b) →
  l1 ≡ₚ l2 →
  printValidationErrors l1 w = printValidationErrors l2 w.
Proof.
  intros Hc Hsep Hp. rewrite !printValidationErrors_run.
  assert (report l1 = report l2) as ->.
  { unfold report. destruct l1 as [|e1 l1], l2 as [|e2 l2]; try done.
    - by apply Permutation_nil_cons in Hp.
    - symmetry in Hp. by apply Permutation_nil_cons in Hp.
    - f_equal. generalize messages as table.
      induction table as [|[k m] table IH]; [done|].
      rewrite !bind_cons, IH. f_equal.
      rewrite !block_names, !group_names.
      rewrite (Array_sort_unique localeCompare _
                 (overrideName <$> List.filter (ofType k) (e2 :: l2))); [done|done| |].
      + intros a b [a' [-> Ha]]%list_elem_of_fmap [b' [-> Hb]]%list_elem_of_fmap.
        apply Hsep; by eapply List_filter_elem_of.
      + by apply fmap_Permutation, List_filter_Permutation. }
  f_equal.
  pose proof (List_filter_Permutation
    (λ err, negb (existsb (String.eqb (type err)) taxonomy)) _ _ Hp) as Hrest.
  fold (unprinted taxonomy l1) in Hrest. fold (unprinted taxonomy l2) in Hrest.
  destruct (unprinted taxonomy l1) as [|r1 rest1], (unprinted taxonomy l2) as [|r2 rest2];
    try done.
  - by apply Permutation_nil_cons in Hrest.
  - symmetry in Hrest. by apply Permutation_nil_cons in Hrest.
  - rewrite (Array_toString_length (r1 :: rest1) (r2 :: rest2)); [done|].
    by rewrite Hrest.
Qed.

(** ** The spinner *)

Lemma ora_start_run t w :
  ora_start t w = (Returned (length (spinners w)), started t w).
Proof.
  unfold ora_start, started, startLine, set_console, set_spinners.
  destruct (interactive w) eqn:E; cbn; rewrite ?E, ?app_nil_r; reflexivity.
Qed.

Lemma ora_persist_run ok sp w :
  ora_persist ok sp w
  = (Returned tt,
     emit [Persist ok (default "" (text <$> spinners w !! sp))]
          (set_spinners (alter (λ o, mkOra (text o) false) sp) w)).
Proof. reflexivity. Qed.

Lemma ora_persist_started ok t out w :
  ora_persist ok (length (spinners w)) (emit out (started t w))
  = (Returned tt, ended t (out ++ [Persist ok t]) w).
Proof.
  rewrite ora_persist_run. unfold emit, started, ended, set_spinners, set_console; simpl.
  rewrite list_lookup_middle by done. simpl.
  rewrite <-(Nat.add_0_r (length (spinners w))), alter_app_r. simpl.
  by rewrite <-!app_assoc.
Qed.

Lemma ora_isSpinning_run sp w :
  ora_isSpinning sp w = (Returned (default false (isSpinning <$> spinners w !! sp)), w).
Proof. reflexivity. Qed.

Lemma spinnerGuard_run {T} sp (fn : M T) w :
  spinnerGuard sp fn w
  = match fn w with
    | (Thrown ex, w') =>
        (Thrown ex,
         if default false (isSpinning <$> spinners w' !! sp)
         then (ora_fail sp w').2 else w')
    | r => r
    end.
Proof.
  unfold spinnerGuard, try_catch. destruct (fn w) as [[a|ex|c] w']; try done.
  rewrite bind_run, ora_isSpinning_run.
  by destruct (default false (isSpinning <$> spinners w' !! sp)).
Qed.

(** C7, as the code has it: [spinnerGuard] returns what the operation
    returns, in the world the operation leaves; when the operation throws,
    it throws the same exception, having failed the spinner if the spinner
    was still spinning, and having left a spinner the operation had already
    ended as it was. No exception is swallowed. *)
Theorem spinnerGuard_returns_or_rethrows {T} sp (fn : M T) w :
  (∀ a w', fn w = (Returned a, w') → spinnerGuard sp fn w = (Returned a, w'))
  ∧ (∀ ex w', fn w = (Thrown ex, w') →
       default false (isSpinning <$> spinners w' !! sp) = true →
       spinnerGuard sp fn w = (Thrown ex, (ora_fail sp w').2)
       ∧ console (ora_fail sp w').2
         = console w' ++ [Persist false (default "" (text <$> spinners w' !! sp))]
       ∧ default false (isSpinning <$> spinners (ora_fail sp w').2 !! sp) = false)
  ∧ (∀ ex w', fn w = (Thrown ex, w') →
       default false (isSpinning <$> spinners w' !! sp) = false →
       spinnerGuard sp fn w = (Thrown ex, w'))
  ∧ (∀ o w', spinnerGuard sp fn w = (o, w') →
       match o with
       | Returned a => fn w = (Returned a, w')
       | Thrown ex => ∃ w'', fn w = (Thrown ex, w'')
       | Exited c => fn w = (Exited c, w')
       end).
Proof.
  rewrite spinnerGuard_run. split; [|split; [|split]].
  - by intros a w' ->.
  - intros ex w' -> Hs. rewrite Hs. split; [done|].
    unfold ora_fail. rewrite ora_persist_run. simpl. split; [done|].
    rewrite list_lookup_alter, decide_True by done.
    by destruct (spinners w' !! sp).
  - intros ex w' -> Hs. by rewrite Hs.
  - intros o w'. destruct (fn w) as [[a|ex|c] w1]; intros [= <- <-]; eauto.
Qed.

(** ** validate *)

Lemma report_no_Persist ok t errs : Persist ok t ∉ report errs.
Proof.
  unfold report. destruct errs as [|e errs]; [apply not_elem_of_nil|].
  intros Hin. apply elem_of_cons in Hin as [?|Hin]; [done|].
  apply list_elem_of_bind in Hin as [[k m] [Hin _]].
  rewrite block_names in Hin. cbn [fst snd] in Hin.
  destruct (overrideName <$> group k (e :: errs)); [by apply elem_of_nil in Hin|].
  apply elem_of_cons in Hin as [?|Hin]; [done|].
  apply elem_of_app in Hin as [Hin|Hin].
  - apply list_elem_of_fmap in Hin as [? [? _]]. done.
  - apply list_elem_of_singleton in Hin. done.
Qed.

Lemma startLine_no_Persist ok t t' w : Persist ok t ∉ startLine t' w.
Proof.
  unfold startLine. destruct (interactive w); [apply not_elem_of_nil|].
  by intros ?%list_elem_of_singleton.
Qed.

(** C3: [validateManifest] takes the findings of the validation as a list. It
    returns, never throws, and reports success (the spinner succeeds, nothing
    else is printed and the exit code is left alone) exactly when the list is
    empty; when it is not, the spinner fails, the errors are printed and the
    exit code is set to 1. This is so on an interactive terminal, where
    [start] leaves no line, and on another stream, where the line "- text" of
    [start] comes first. *)
Theorem validateManifest_reports opts w errs :
  Api_validateManifest opts (started "Validating overrides" w) = inr errs →
  Forall (λ err, type err ∈ taxonomy) errs →
  ∃ w', validateManifest opts w = (Returned tt, w')
    ∧ spinners w' = spinners w ++ [mkOra "Validating overrides" false]
    ∧ manifest w' = manifest w ∧ files w' = files w
    ∧ (errs = [] →
         console w' = console w ++ startLine "Validating overrides" w
                        ++ [Persist true "Validating overrides"]
         ∧ exitCode w' = exitCode w)
    ∧ (errs ≠ [] →
         console w' = console w ++ startLine "Validating overrides" w
                        ++ Persist false "Validating overrides" :: report errs
         ∧ exitCode w' = Some 1%Z)
    ∧ (Persist true "Validating overrides" ∈ drop (length (console w)) (console w')
       ↔ errs = []).
Proof.
  intros Hapi Hknown. unfold validateManifest.
  rewrite bind_run, ora_start_run, spinnerGuard_run, bind_run.
  unfold ask at 1. rewrite Hapi.
  destruct errs as [|e errs].
  - change (length [] =? 0)%nat with true. cbv iota.
    unfold ora_succeed. rewrite <-(emit_nil (started _ w)), ora_persist_started.
    eexists. split; [done|].
    cbn [console spinners exitCode manifest files ended app].
    split; [done|]. split; [done|]. split; [done|]. split; [done|]. split; [done|].
    split; [done|]. intros _. rewrite drop_app_length.
    apply elem_of_app. right. by apply list_elem_of_singleton.
  - change (length (e :: errs) =? 0)%nat with false. cbv iota.
    unfold ora_fail at 1.
    rewrite bind_run, <-(emit_nil (started _ w)), ora_persist_started.
    rewrite bind_run, printValidationErrors_run, unprinted_known by done.
    eexists. split; [done|].
    cbn [console spinners exitCode manifest files ended emit set_console set_exitCode app].
    rewrite <-!app_assoc. cbn [app].
    split; [done|]. split; [done|]. split; [done|]. split; [done|]. split; [done|].
    split; [|done]. rewrite drop_app_length. intros Hin.
    apply elem_of_app in Hin as [Hin|Hin]; [by apply startLine_no_Persist in Hin|].
    apply elem_of_cons in Hin as [?|Hin]; [done|]. by apply report_no_Persist in Hin.
Qed.

(** ** The manifest *)

Lemma Manifest_has_count n m : Manifest_has n m = false ↔ count_named n m = 0.
Proof.
  unfold Manifest_has, count_named. induction m as [|e m IH]; simpl; [done|].
  destruct (name e =? n)%string; simpl; [split; [done|lia]|done].
Qed.

Lemma Manifest_has_elem_of n m : Manifest_has n m = true ↔ n ∈ name <$> m.
Proof.
  unfold Manifest_has. induction m as [|e m IH]; csimpl.
  - split; [done|]. by intros ?%elem_of_nil.
  - rewrite orb_true_iff, IH, elem_of_cons, String.eqb_eq.
    split; (intros [?|?]; [by left|by right]).
Qed.

Lemma Manifest_remove_absent n m :
  Manifest_has n m = false → Manifest_remove n m = (false, m).
Proof.
  unfold Manifest_has. induction m as [|e m IH]; simpl; [done|].
  destruct (name e =? n)%string; simpl; [done|]. intros H. by rewrite IH.
Qed.

(** [remove] takes out the first entry of the name, and nothing else. *)
Lemma Manifest_remove_present n m :
  Manifest_has n m = true →
  ∃ l1 e l2, m = l1 ++ e :: l2 ∧ name e = n ∧ Manifest_has n l1 = false
             ∧ Manifest_remove n m = (true, l1 ++ l2).
Proof.
  unfold Manifest_has. induction m as [|e m IH]; simpl; [done|].
  destruct (name e =? n)%string eqn:E; simpl.
  - intros _. apply String.eqb_eq in E. by exists [], e, m.
  - intros (l1 & e' & l2 & -> & Hn & Hl1 & ->)%IH.
    exists (e :: l1), e', l2. simpl. by rewrite E.
Qed.

Lemma count_named_app n m1 m2 :
  count_named n (m1 ++ m2) = count_named n m1 + count_named n m2.
Proof. unfold count_named. by rewrite List.filter_app, length_app. Qed.

Lemma count_named_NoDup n (m : list Override) :
  NoDup (name <$> m) → (count_named n m ≤ 1)%nat.
Proof.
  unfold count_named. induction m as [|e m IH]; csimpl; [lia|].
  intros [Hnotin Hnd]%NoDup_cons. destruct (name e =? n)%string eqn:E; simpl; [|auto].
  apply String.eqb_eq in E. subst n.
  apply (not_iff_compat (Manifest_has_elem_of (name e) m)) in Hnotin.
  apply not_true_is_false, Manifest_has_count in Hnotin.
  unfold count_named in Hnotin. lia.
Qed.

(** With unique names, [remove] leaves no entry of the name. *)
Lemma Manifest_remove_gone n m :
  NoDup (name <$> m) → Manifest_has n (Manifest_remove n m).2 = false.
Proof.
  intros Hnd. destruct (Manifest_has n m) eqn:Hhas.
  - pose proof (count_named_NoDup n m Hnd) as Hle.
    apply Manifest_remove_present in Hhas as (l1 & e & l2 & -> & Hn & Hl1 & ->).
    apply Manifest_has_count. simpl. apply Manifest_has_count in Hl1.
    assert (count_named n (e :: l2) = S (count_named n l2)) as Heq.
    { unfold count_named. simpl. by rewrite (proj2 (String.eqb_eq _ _) Hn). }
    rewrite !count_named_app, ?Heq in *. lia.
  - by rewrite Manifest_remove_absent.
Qed.

Lemma Manifest_remove_sublist n m : sublist (Manifest_remove n m).2 m.
Proof.
  induction m as [|e m IH]; simpl; [done|].
  destruct (name e =? n)%string; simpl.
  - by apply sublist_cons.
  - destruct (Manifest_remove n m). by apply sublist_skip.
Qed.

Lemma Manifest_remove_length n m :
  Manifest_has n m = true → S (length (Manifest_remove n m).2) = length m.
Proof.
  intros (l1 & e & l2 & -> & _ & _ & ->)%Manifest_remove_present.
  simpl. rewrite !length_app. simpl. lia.
Qed.

(** [add] of an entry whose name is not listed puts it at the end. *)
Lemma Manifest_add_absent e m :
  Manifest_has (name e) m = false → Manifest_add e m = m ++ [e].
Proof.
  unfold Manifest_has. induction m as [|e' m IH]; simpl; [done|].
  destruct (name e' =? name e)%string; simpl; [done|]. intros H. by rewrite IH.
Qed.

Lemma readded_eq e m :
  NoDup (name <$> m) → readded e m = (Manifest_remove (name e) m).2 ++ [e].
Proof. intros Hnd. apply Manifest_add_absent. by apply Manifest_remove_gone. Qed.

Lemma readded_NoDup e m : NoDup (name <$> m) → NoDup (name <$> readded e m).
Proof.
  intros Hnd. rewrite readded_eq by done.
  rewrite fmap_app. apply NoDup_app. split; [|split].
  - eapply sublist_NoDup; [done|]. apply fmap_sublist, Manifest_remove_sublist.
  - intros n Hn [->|[]%elem_of_nil]%elem_of_cons.
    apply Manifest_has_elem_of in Hn. by rewrite Manifest_remove_gone in Hn.
  - apply NoDup_singleton.
Qed.

Lemma readded_count e m : NoDup (name <$> m) → count_named (name e) (readded e m) = 1.
Proof.
  intros Hnd. rewrite readded_eq, count_named_app by done.
  pose proof (Manifest_remove_gone (name e) m Hnd) as ->%Manifest_has_count.
  unfold count_named. simpl. by rewrite String.eqb_refl.
Qed.

Lemma readded_idempotent e m : NoDup (name <$> m) → readded e (readded e m) = readded e m.
Proof.
  intros Hnd. rewrite (readded_eq e (readded e m)) by by apply readded_NoDup.
  rewrite (readded_eq e m) by done. f_equal.
  pose proof (Manifest_remove_gone (name e) m Hnd) as Hgone.
  generalize dependent (Manifest_remove (name e) m).2. intros m' Hgone.
  unfold Manifest_has in Hgone. induction m' as [|e' m' IH]; simpl in *.
  - by rewrite String.eqb_refl.
  - destruct (name e' =? name e)%string; simpl in *; [done|].
    rewrite <-(IH Hgone) at 2. by destruct (Manifest_remove (name e) (m' ++ [e])).
Qed.

Lemma readded_length e m :
  NoDup (name <$> m) → Manifest_has (name e) m = true → length (readded e m) = length m.
Proof.
  intros Hnd Hhas. rewrite readded_eq, length_app by done.
  apply Manifest_remove_length in Hhas. simpl. lia.
Qed.

Lemma set_manifest_id w : set_manifest (λ _, manifest w) w = w.
Proof. by destruct w. Qed.

Lemma Api_removeOverride_run n manifestPath w :
  Api_removeOverride n manifestPath w
  = (Returned (Manifest_remove n (manifest w)).1,
     set_manifest (λ _, (Manifest_remove n (manifest w)).2) w).
Proof.
  unfold Api_removeOverride. rewrite bind_run. cbn [gets].
  destruct (Manifest_has n (manifest w)) eqn:Hhas.
  - apply Manifest_remove_present in Hhas as (l1 & e & l2 & _ & _ & _ & ->). reflexivity.
  - rewrite Manifest_remove_absent by done. cbn. by rewrite set_manifest_id.
Qed.

Lemma ora_persist_last ok t spinning sp w l :
  spinners w = l ++ [mkOra t spinning] → sp = length l →
  ora_persist ok sp w
  = (Returned tt, mkWorld (console w ++ [Persist ok t]) (l ++ [mkOra t false])
                          (exitCode w) (manifest w) (files w) (interactive w)).
Proof.
  intros Hsp ->. rewrite ora_persist_run. unfold emit, set_spinners, set_console; simpl.
  rewrite Hsp, list_lookup_middle by done. simpl.
  by rewrite <-(Nat.add_0_r (length l)), alter_app_r.
Qed.

(** ** remove *)

(** C5: [remove] answers false, and fails in no way, when the manifest lists
    no entry of the name, and leaves the manifest as it is; it answers true
    when one is listed, and takes it out: the entries before and after it
    stay, and with unique names no entry of the name is left. The remove
    command reads the answer: on true it prints that the override was
    removed and returns, on false it prints that it could not remove it and
    ends the process with exit code 1. *)
Theorem removeOverride_reports overridePath manifestPath w :
  findManifest (path_dirname overridePath) = inr manifestPath →
  let overrideName := path_relative (path_dirname manifestPath) (path_resolve overridePath) in
  (Manifest_has overrideName (manifest w) = false →
     Api_removeOverride overrideName manifestPath w = (Returned false, w)
     ∧ removeOverride overridePath w = (Exited 1, emit [not_removed_message] w))
  ∧ (Manifest_has overrideName (manifest w) = true →
     ∃ l1 e l2,
       manifest w = l1 ++ e :: l2 ∧ name e = overrideName
       ∧ Manifest_has overrideName l1 = false
       ∧ Api_removeOverride overrideName manifestPath w
         = (Returned true, set_manifest (λ _, l1 ++ l2) w)
       ∧ removeOverride overridePath w
         = (Returned tt, emit [removed_message] (set_manifest (λ _, l1 ++ l2) w))
       ∧ (NoDup (name <$> manifest w) → Manifest_has overrideName (l1 ++ l2) = false)).
Proof.
  intros Hfind n. split.
  - intros Hhas. unfold removeOverride.
    rewrite bind_run. unfold ask at 1. rewrite Hfind.
    fold n. rewrite bind_run, !Api_removeOverride_run, Manifest_remove_absent by done.
    cbn [fst snd]. by rewrite set_manifest_id.
  - intros Hhas. pose proof (Manifest_remove_gone n (manifest w)) as Hgone.
    destruct (Manifest_remove_present _ _ Hhas) as (l1 & e & l2 & Hm & Hn & Hl1 & Hrm).
    exists l1, e, l2. rewrite Hrm in Hgone.
    split; [done|]. split; [done|]. split; [done|].
    unfold removeOverride.
    rewrite bind_run. unfold ask at 1. rewrite Hfind.
    fold n. rewrite bind_run, !Api_removeOverride_run, Hrm. done.
Qed.

(** ** add *)

Lemma addOverride_run overridePath manifestPath details w :
  findManifest (path_dirname overridePath) = inr manifestPath →
  promptForOverrideDetails = inr details →
  addOverride overridePath w
  = (Returned tt,
     mkWorld (console w
                ++ (if Manifest_has (name (prompted overridePath manifestPath details))
                                    (manifest w)
                    then [overwrite_warning] else [])
                ++ startLine "Adding override" w
                ++ [Persist true "Adding override"])
             (spinners w ++ [mkOra "Adding override" false]) (exitCode w)
             (readded (prompted overridePath manifestPath details) (manifest w))
             (files w) (interactive w)).
Proof.
  intros Hfind Hprompt. unfold addOverride.
  rewrite bind_run. unfold ask at 1. rewrite Hfind.
  rewrite bind_run. cbn [Api_hasOverride gets].
  set (n := path_relative (path_dirname manifestPath) (path_resolve overridePath)).
  change (name (prompted overridePath manifestPath details)) with n.
  set (warn := if Manifest_has n (manifest w) then [overwrite_warning] else []).
  assert ((if Manifest_has n (manifest w) as b return M unit
           then console_warn (chalk yellow
             "Warning: override already exists in manifest and will be overwritten")
           else mret tt) w = (Returned tt, emit warn w)) as Hwarn.
  { unfold warn. destruct (Manifest_has n (manifest w)); [done|]. by rewrite emit_nil. }
  rewrite bind_run, Hwarn.
  rewrite bind_run. unfold ask at 1. rewrite Hprompt.
  rewrite bind_run, ora_start_run, spinnerGuard_run.
  rewrite bind_run. cbn [Api_getOverrideFactory mret M_ret ret].
  rewrite bind_run. cbn [overrideFromDetails mret M_ret ret factory_manifestDir factory_version].
  rewrite bind_run, Api_removeOverride_run.
  rewrite bind_run. cbn [Api_addOverride modify].
  unfold ora_succeed.
  erewrite ora_persist_last; [|reflexivity|reflexivity].
  cbn [console spinners exitCode manifest files interactive started emit set_console
       set_spinners set_manifest].
  unfold startLine. cbn [interactive]. by rewrite <-!app_assoc.
Qed.

(** C4: the add command replaces; it does not duplicate. In a manifest with
    unique names, after the command there is exactly one entry of the name
    of the override, it is the new entry, and the names are still unique;
    when the name was listed, the manifest has as many entries as before and
    the user has been warned; and running the command again with the same
    answers leaves the manifest as the first run left it. *)
Theorem addOverride_replaces overridePath manifestPath details w :
  findManifest (path_dirname overridePath) = inr manifestPath →
  promptForOverrideDetails = inr details →
  NoDup (name <$> manifest w) →
  let override := prompted overridePath manifestPath details in
  ∃ w', addOverride overridePath w = (Returned tt, w')
    ∧ count_named (name override) (manifest w') = 1
    ∧ override ∈ manifest w'
    ∧ NoDup (name <$> manifest w')
    ∧ (Manifest_has (name override) (manifest w) = true →
         length (manifest w') = length (manifest w) ∧ overwrite_warning ∈ console w')
    ∧ ∃ w'', addOverride overridePath w' = (Returned tt, w'')
             ∧ manifest w'' = manifest w'.
Proof.
  intros Hfind Hprompt Hnd override.
  rewrite (addOverride_run _ _ _ w Hfind Hprompt). fold override.
  eexists. split; [done|]. cbn [console manifest].
  split; [by apply readded_count|].
  split; [rewrite readded_eq by done; apply elem_of_app; right; by left|].
  split; [by apply readded_NoDup|].
  split.
  - intros Hhas. split; [by apply readded_length|]. rewrite Hhas.
    apply elem_of_app. right. by left.
  - rewrite (addOverride_run _ _ _ _ Hfind Hprompt). fold override.
    eexists. split; [done|]. cbn [manifest]. by apply readded_idempotent.
Qed.

(** ** upgrade *)

Lemma upgradeEach_cons version allowed onProgress total current e rest m w :
  ∃ o1 w1,
    try_catch (onProgress current total) (λ _, mret tt) w = (o1, w1)
    ∧ match o1 with
      | Returned _ =>
          match merged_of version (files w1) e with
          | Some (merged, conflicts) =>
              upgradeEach version allowed onProgress total current (e :: rest) m w
              = upgradeRest version allowed onProgress total current e rest m
                            merged conflicts w1
          | None =>
              ∃ ex, upgradeEach version allowed onProgress total current (e :: rest) m w
                    = (Thrown ex, w1)
          end
      | Thrown ex =>
          upgradeEach version allowed onProgress total current (e :: rest) m w
          = (Thrown ex, w1)
      | Exited c =>
          upgradeEach version allowed onProgress total current (e :: rest) m w
          = (Exited c, w1)
      end.
Proof.
  destruct (try_catch (onProgress current total) (λ _, mret tt) w) as [o1 w1] eqn:Hp.
  exists o1, w1. split; [done|].
  cbn [upgradeEach]. rewrite bind_run, Hp.
  destruct o1 as [[]|ex|c]; [|done..].
  unfold merged_of, upgradeRest.
  destruct (baseFile e) as [base|]; cbv iota; [|eexists; reflexivity].
  rewrite bind_run. cbn [fetch mret M_ret ret].
  destruct (upstream base (baseVersion e)) as [oldBase|]; cbv iota;
    [|eexists; reflexivity].
  rewrite bind_run. cbn [fetch mret M_ret ret].
  destruct (upstream base version) as [newBase|]; cbv iota; [|eexists; reflexivity].
  rewrite bind_run. cbn [fetch mret M_ret ret].
  rewrite bind_run, (bind_run (gets files)). cbn [gets].
  destruct (files w1 !! name e) as [ours|]; cbv iota; [|eexists; reflexivity].
  cbn [fetch mret M_ret ret].
  destruct (merge3 oldBase newBase ours) as [merged conflicts].
  rewrite bind_run.
  destruct (conflicts && negb allowed).
  - cbn [mret M_ret ret]. rewrite bind_run.
    by destruct (upgradeEach _ _ _ _ _ _ _ _) as [[[results m']|ex|c] w'].
  - rewrite bind_run. cbn [modify mret M_ret ret]. rewrite bind_run.
    by destruct (upgradeEach _ _ _ _ _ _ _ _) as [[[results m']|ex|c] w'].
Qed.

Lemma try_catch_quiet onProgress current total w :
  quiet onProgress →
  files (try_catch (onProgress current total) (λ _, mret tt) w).2 = files w.
Proof.
  intros Hq. destruct (Hq current total w) as [Hf _]. unfold try_catch.
  by destruct (onProgress current total w) as [[[]|ex|c] w1].
Qed.

Lemma try_catch_quiet_manifest onProgress current total w :
  quiet onProgress →
  manifest (try_catch (onProgress current total) (λ _, mret tt) w).2 = manifest w.
Proof.
  intros Hq. destruct (Hq current total w) as [_ Hm]. unfold try_catch.
  by destruct (onProgress current total w) as [[[]|ex|c] w1].
Qed.

Lemma merged_of_ext version fs fs' e :
  fs' !! name e = fs !! name e → merged_of version fs' e = merged_of version fs e.
Proof. intros H. unfold merged_of. by rewrite H. Qed.

Section UpgradeEach.
Context (version : string) (allowed : bool) (onProgress : nat → nat → M unit) (total : nat).
Hypothesis onProgress_quiet : quiet onProgress.

(** One step of the pass, with the case it is in. *)
Ltac upgrade_step current e rest m w Hrun :=
  let o1 := fresh "o1" in
  let w1 := fresh "w1" in
  let Hp := fresh "Hp" in
  let Hstep := fresh "Hstep" in
  let Hfiles := fresh "Hfiles" in
  destruct (upgradeEach_cons version allowed onProgress total current e rest m w)
    as (o1 & w1 & Hp & Hstep);
  pose proof (try_catch_quiet onProgress current total w onProgress_quiet) as Hfiles;
  rewrite Hp in Hfiles; cbn [snd] in Hfiles;
  destruct o1 as [[]|?ex|?c];
    [ rewrite Hfiles in Hstep;
      destruct (merged_of version (files w) e) as [[?merged ?conflicts]|] eqn:?Hm;
        [|destruct Hstep as [?ex Hstep]]
    | | ];
  rewrite Hstep in Hrun.

(** A file is left as it was when every stale entry of its name is one the
    pass skips: its merge has conflicts, and conflicts are not allowed. *)
Lemma upgradeEach_keeps_file stale : ∀ m current w o w' n,
  upgradeEach version allowed onProgress total current stale m w = (o, w') →
  (∀ e, e ∈ stale → name e = n → allowed = false ∧ conflicting version (files w) e) →
  files w' !! n = files w !! n.
Proof using onProgress_quiet.
  induction stale as [|e rest IH]; intros m current w o w' n Hrun Hskip.
  - by injection Hrun as <- <-.
  - upgrade_step current e rest m w Hrun.
    + unfold upgradeRest in Hrun.
      destruct (conflicts && negb allowed) eqn:Hc.
      * destruct (upgradeEach _ _ _ _ _ rest m w1) as [o2 w2] eqn:Hrest.
        rewrite <-Hfiles. etrans; [|eapply (IH _ _ _ _ _ n Hrest)].
        { by destruct o2 as [[]| |]; injection Hrun as <- <-. }
        intros e' He' Hn. destruct (Hskip e' (list_elem_of_further _ _ _ He') Hn) as [-> [mg Hmg]].
        split; [done|]. exists mg. rewrite <-Hmg. apply merged_of_ext. by rewrite Hfiles.
      * destruct (upgradeEach _ _ _ _ _ rest _ _) as [o2 w2] eqn:Hrest.
        assert (name e ≠ n) as Hne.
        { intros Hn. destruct (Hskip e (list_elem_of_here _ _) Hn) as [-> [mg Hmg]].
          rewrite Hm in Hmg. injection Hmg as -> ->. done. }
        transitivity (files w2 !! n).
        { by destruct o2 as [[]| |]; injection Hrun as <- <-. }
        rewrite (IH _ _ _ _ _ n Hrest).
        { cbn [files set_files]. by rewrite lookup_insert_ne, Hfiles. }
        intros e' He' Hn. destruct (Hskip e' (list_elem_of_further _ _ _ He') Hn) as [-> [mg Hmg]].
        split; [done|]. exists mg. rewrite <-Hmg. apply merged_of_ext.
        cbn [files set_files]. rewrite lookup_insert_ne, Hfiles by congruence. done.
    + injection Hrun as <- <-. by rewrite Hfiles.
    + injection Hrun as <- <-. by rewrite Hfiles.
    + injection Hrun as <- <-. by rewrite Hfiles.
Qed.

Lemma setBaseVersion_other n e m :
  name e ≠ n → e ∈ m → e ∈ setBaseVersion n version m.
Proof.
  intros Hne Hin. unfold setBaseVersion. apply list_elem_of_fmap. exists e.
  split; [|done]. apply String.eqb_neq in Hne. by rewrite Hne.
Qed.

(** An entry is left as it was, base version and all, in the manifest the
    pass builds, when every stale entry of its name is one the pass skips. *)
Lemma upgradeEach_keeps_entry stale : ∀ m current w results m' w' e0,
  upgradeEach version allowed onProgress total current stale m w
  = (Returned (results, m'), w') →
  (∀ e, e ∈ stale → name e = name e0 → allowed = false ∧ conflicting version (files w) e) →
  e0 ∈ m → e0 ∈ m'.
Proof using onProgress_quiet.
  induction stale as [|e rest IH]; intros m current w results m' w' e0 Hrun Hskip Hin.
  - by injection Hrun as <- <- <-.
  - upgrade_step current e rest m w Hrun; [|done..].
    unfold upgradeRest in Hrun.
    destruct (conflicts && negb allowed) eqn:Hc.
    + destruct (upgradeEach _ _ _ _ _ rest m w1) as [[[results2 m2]| |] w2] eqn:Hrest;
        [|done..].
      injection Hrun as <- <- <-. eapply (IH _ _ _ _ _ _ e0 Hrest); [|done].
      intros e' He' Hn. destruct (Hskip e' (list_elem_of_further _ _ _ He') Hn) as [-> [mg Hmg]].
      split; [done|]. exists mg. by rewrite Hfiles.
    + destruct (upgradeEach _ _ _ _ _ rest _ _) as [[[results2 m2]| |] w2] eqn:Hrest;
        [|done..].
      injection Hrun as <- <- <-.
      assert (name e ≠ name e0) as Hne.
      { intros Hn. destruct (Hskip e (list_elem_of_here _ _) Hn) as [-> [mg Hmg]].
        rewrite Hm in Hmg. injection Hmg as -> ->. done. }
      eapply (IH _ _ _ _ _ _ e0 Hrest); [|by apply setBaseVersion_other].
      intros e' He' Hn. destruct (Hskip e' (list_elem_of_further _ _ _ He') Hn) as [-> [mg Hmg]].
      split; [done|]. exists mg. rewrite <-Hmg. apply merged_of_ext.
      cbn [files set_files]. rewrite lookup_insert_ne, Hfiles by congruence. done.
Qed.

(** With unique names, every stale entry gives a result which tells whether
    its merge had conflicts, and its file is the merged content unless the
    entry was skipped. *)
Lemma upgradeEach_entry stale : ∀ m current w results m' w' e merged conflicts,
  NoDup (name <$> stale) →
  upgradeEach version allowed onProgress total current stale m w
  = (Returned (results, m'), w') →
  e ∈ stale →
  merged_of version (files w) e = Some (merged, conflicts) →
  mkUpgradeResult (name e) conflicts ∈ results
  ∧ files w' !! name e
    = if conflicts && negb allowed then files w !! name e else Some merged.
Proof using onProgress_quiet.
  induction stale as [|e1 rest IH];
    intros m current w results m' w' e merged conflicts Hnd Hrun Hin Hmerged.
  - by apply elem_of_nil in Hin.
  - rewrite fmap_cons in Hnd. apply NoDup_cons in Hnd as [Hfresh Hnd].
    upgrade_step current e1 rest m w Hrun; [|done..].
    unfold upgradeRest in Hrun.
    destruct (if conflicts0 && negb allowed then (m, w1)
              else (setBaseVersion (name e1) version m,
                    set_files <[name e1:=merged0]> w1)) as [m1 w2] eqn:Hw2.
    assert (∀ n, n ≠ name e1 → files w2 !! n = files w !! n) as Hother.
    { intros n Hn. destruct (conflicts0 && negb allowed); injection Hw2 as <- <-.
      - by rewrite Hfiles.
      - cbn [files set_files]. by rewrite lookup_insert_ne, Hfiles. }
    destruct (upgradeEach _ _ _ _ _ rest m1 w2) as [[[results2 m2]| |] w3] eqn:Hrest;
      [|done..].
    injection Hrun as <- <- <-.
    apply elem_of_cons in Hin as [->|Hin].
    + rewrite Hm in Hmerged. injection Hmerged as -> ->. split; [by left|].
      rewrite (upgradeEach_keeps_file rest _ _ _ _ _ (name e1) Hrest).
      * destruct (conflicts && negb allowed); injection Hw2 as <- <-.
        -- by rewrite Hfiles.
        -- cbn [files set_files]. by rewrite lookup_insert_eq.
      * intros e' He' Hn. exfalso. apply Hfresh. rewrite <-Hn.
        apply list_elem_of_fmap. by exists e'.
    + assert (name e ≠ name e1) as Hne.
      { intros Hn. apply Hfresh. rewrite <-Hn. apply list_elem_of_fmap. by exists e. }
      destruct (IH _ _ _ _ _ _ e merged conflicts Hnd Hrest Hin) as [Hres Hfile].
      { rewrite <-Hmerged. apply merged_of_ext. by apply Hother. }
      split; [by right|]. by rewrite Hfile, Hother.
Qed.

(** The pass returns when the listener does not end the process and the
    three contents of every stale entry can be fetched. *)
Lemma upgradeEach_returns stale : ∀ m current w,
  (∀ c t w0, ∀ code, (onProgress c t w0).1 ≠ Exited code) →
  (∀ e, e ∈ stale → is_Some (merged_of version (files w) e)) →
  ∃ results m' w',
    upgradeEach version allowed onProgress total current stale m w
    = (Returned (results, m'), w').
Proof using onProgress_quiet.
  intros m current w Hnoexit. revert m current w.
  induction stale as [|e rest IH]; intros m current w Hfetch.
  - by eexists _, _, _.
  - destruct (upgradeEach_cons version allowed onProgress total current e rest m w)
      as (o1 & w1 & Hp & Hstep).
    pose proof (try_catch_quiet onProgress current total w onProgress_quiet) as Hfiles.
    rewrite Hp in Hfiles. cbn [snd] in Hfiles.
    assert (∃ u, o1 = Returned u) as [[] ->].
    { unfold try_catch in Hp. pose proof (Hnoexit current total w) as Hne.
      destruct (onProgress current total w) as [[[]|ex|c] w0]; cbn in Hp, Hne.
      - injection Hp as <- <-. eauto.
      - injection Hp as <- <-. eauto.
      - by destruct (Hne c). }
    rewrite Hfiles in Hstep.
    destruct (Hfetch e (list_elem_of_here _ _)) as [[merged conflicts] Hm].
    rewrite Hm in Hstep. rewrite Hstep. unfold upgradeRest.
    destruct (if conflicts && negb allowed then (m, w1)
              else (setBaseVersion (name e) version m,
                    set_files <[name e:=merged]> w1)) as [m1 w2] eqn:Hw2.
    destruct (IH m1 (S current) w2) as (results & m' & w' & ->); [|by eexists _, _, _].
    intros e' He'. destruct (Hfetch e' (list_elem_of_further _ _ _ He')) as [mg Hmg].
    revert Hmg. unfold merged_of.
    destruct (baseFile e') as [base|]; [|done].
    destruct (upstream base (baseVersion e')), (upstream base version); try done.
    destruct (files w !! name e') as [ours|] eqn:Hours; [|done]. intros _.
    assert (is_Some (files w2 !! name e')) as [ours' ->]; [|done].
    destruct (conflicts && negb allowed); injection Hw2 as <- <-.
    + rewrite Hfiles, Hours. eauto.
    + cbn [files set_files]. rewrite Hfiles.
      destruct (decide (name e = name e')) as [->|Hne].
      * rewrite lookup_insert_eq. eauto.
      * rewrite lookup_insert_ne, Hours by done. eauto.
Qed.

(** The pass works on the manifest it was given: the one of the world is
    not written. *)
Lemma upgradeEach_manifest stale : ∀ m current w o w',
  upgradeEach version allowed onProgress total current stale m w = (o, w') →
  manifest w' = manifest w.
Proof using onProgress_quiet.
  induction stale as [|e rest IH]; intros m current w o w' Hrun.
  - by injection Hrun as <- <-.
  - pose proof (try_catch_quiet_manifest onProgress current total w onProgress_quiet) as Hmf.
    upgrade_step current e rest m w Hrun.
    + rewrite Hp in Hmf. cbn [snd] in Hmf. unfold upgradeRest in Hrun.
      destruct (if conflicts && negb allowed then (m, w1)
                else (setBaseVersion (name e) version m,
                      set_files <[name e:=merged]> w1)) as [m1 w2] eqn:Hw2.
      assert (manifest w2 = manifest w) as Hw2m.
      { by destruct (conflicts && negb allowed); injection Hw2 as <- <-. }
      destruct (upgradeEach _ _ _ _ _ rest m1 w2) as [o2 w3] eqn:Hrest.
      rewrite <-Hw2m, <-(IH _ _ _ _ _ Hrest).
      by destruct o2 as [[]| |]; injection Hrun as <- <-.
    + rewrite Hp in Hmf. by injection Hrun as <- <-.
    + rewrite Hp in Hmf. by injection Hrun as <- <-.
    + rewrite Hp in Hmf. by injection Hrun as <- <-.
Qed.

End UpgradeEach.

Lemma progress_quiet spinner : quiet (progress spinner).
Proof. by intros c t w. Qed.

Lemma progress_no_exit spinner c t w code : (progress spinner c t w).1 ≠ Exited code.
Proof. done. Qed.

Lemma Api_upgradeOverrides_run opts onProgress w :
  Api_upgradeOverrides opts onProgress w
  = match upgradeEach (target opts) (allowConflicts opts) onProgress
                      (length (stale_of opts w)) 1 (stale_of opts w) (manifest w) w with
    | (Returned (results, m), w') => (Returned results, set_manifest (λ _, m) w')
    | (Thrown ex, w') => (Thrown ex, w')
    | (Exited c, w') => (Exited c, w')
    end.
Proof.
  unfold Api_upgradeOverrides. rewrite bind_run. cbn [gets].
  fold (target opts). fold (stale_of opts w). rewrite bind_run.
  by destruct (upgradeEach _ _ _ _ _ _ _ _) as [[[results m]|ex|c] w'].
Qed.

Lemma printUpgradeStats_run results allowed w :
  printUpgradeStats results allowed w = (Returned tt, emit (stats results allowed) w).
Proof.
  unfold printUpgradeStats, stats. rewrite bind_run.
  destruct (Z.of_nat (length results) =? 0)%Z;
    destruct (allowed && (0 <? Z.of_nat (length (List.filter hasConflicts results)))%Z);
    unfold console_log, modify, mret, M_ret, ret, emit, set_console; cbn [console];
    rewrite <-?app_assoc; reflexivity.
Qed.

Lemma upgrade_run opts w :
  upgrade opts w
  = match Api_upgradeOverrides opts (progress (length (spinners w)))
                               (started "Merging overrides" w) with
    | (Returned results, w1) =>
        (Returned tt,
         emit (stats results (allowConflicts opts)) (ora_succeed (length (spinners w)) w1).2)
    | (Thrown ex, w1) =>
        (Thrown ex,
         if default false (isSpinning <$> spinners w1 !! length (spinners w))
         then (ora_fail (length (spinners w)) w1).2 else w1)
    | (Exited c, w1) => (Exited c, w1)
    end.
Proof.
  unfold upgrade. rewrite bind_run, ora_start_run, spinnerGuard_run, bind_run.
  change (λ currentOverride totalOverrides : nat, ora_set_text _ _)
    with (progress (length (spinners w))).
  destruct (Api_upgradeOverrides _ _ _) as [[results|ex|c] w1]; [|done..].
  unfold ora_succeed. rewrite bind_run, ora_persist_run, printUpgradeStats_run. done.
Qed.

(** The command leaves the files and the manifest as the engine leaves them. *)
Lemma upgrade_store opts w :
  files (upgrade opts w).2
  = files (Api_upgradeOverrides opts (progress (length (spinners w)))
                                (started "Merging overrides" w)).2
  ∧ manifest (upgrade opts w).2
    = manifest (Api_upgradeOverrides opts (progress (length (spinners w)))
                                     (started "Merging overrides" w)).2.
Proof.
  rewrite upgrade_run.
  destruct (Api_upgradeOverrides _ _ _) as [[results|ex|c] w1]; cbn [snd]; [done| |done].
  by destruct (default false _).
Qed.

Lemma outOfDate_merged_of version fs e :
  outOfDate version e = true → is_Some (fs !! name e) → is_Some (merged_of version fs e).
Proof.
  unfold outOfDate, merged_of. destruct (baseFile e) as [base|]; [|done].
  destruct (upstream base (baseVersion e)), (upstream base version);
    rewrite ?andb_false_r; try done.
  intros _ [ours ->]. eauto.
Qed.

Lemma stale_of_elem_of opts w e :
  e ∈ stale_of opts w ↔ e ∈ manifest w ∧ outOfDate (target opts) e = true.
Proof. unfold stale_of. rewrite !list_elem_of_In, filter_In. by rewrite <-list_elem_of_In. Qed.

Lemma stale_of_NoDup opts w :
  NoDup (name <$> manifest w) → NoDup (name <$> stale_of opts w).
Proof.
  intros Hnd. eapply sublist_NoDup; [done|]. apply fmap_sublist.
  unfold stale_of. clear Hnd. induction (manifest w) as [|e m IH]; simpl; [constructor|].
  destruct (outOfDate (target opts) e); by constructor.
Qed.

Lemma NoDup_name_eq (m : list Override) e e' :
  NoDup (name <$> m) → e ∈ m → e' ∈ m → name e' = name e → e' = e.
Proof.
  induction m as [|x m IH]; csimpl; [by intros _ ?%elem_of_nil|].
  intros [Hx Hnd]%NoDup_cons [->|He]%elem_of_cons [->|He']%elem_of_cons Hn; try done.
  - exfalso. apply Hx. rewrite <-Hn. apply list_elem_of_fmap. by exists e'.
  - exfalso. apply Hx. rewrite Hn. apply list_elem_of_fmap. by exists e.
  - by apply IH.
Qed.

(** C2: when conflicts are not allowed, an upgrade leaves an entry whose
    merge has conflicts as it was: the content of its override file is the
    same after the command, however the command ends, and the entry is still
    in the manifest with the base version it had; the results the engine
    returns hold the entry with [hasConflicts = true]. The engine does return
    when the override file of every stale entry can be read. *)
Theorem upgrade_conflicts_not_allowed opts w e :
  allowConflicts opts = false →
  NoDup (name <$> manifest w) →
  e ∈ manifest w →
  outOfDate (target opts) e = true →
  conflicting (target opts) (files w) e →
  files (upgrade opts w).2 !! name e = files w !! name e
  ∧ e ∈ manifest (upgrade opts w).2
  ∧ (∀ results w1,
       Api_upgradeOverrides opts (progress (length (spinners w)))
                            (started "Merging overrides" w) = (Returned results, w1) →
       mkUpgradeResult (name e) true ∈ results)
  ∧ ((∀ e', e' ∈ manifest w → outOfDate (target opts) e' = true →
            is_Some (files w !! name e')) →
     ∃ results w1,
       Api_upgradeOverrides opts (progress (length (spinners w)))
                            (started "Merging overrides" w) = (Returned results, w1)
       ∧ (upgrade opts w).1 = Returned tt).
Proof.
  intros Hallow Hnd Hin Hstale [merged Hconf].
  destruct (upgrade_store opts w) as [-> ->]. rewrite upgrade_run.
  rewrite Api_upgradeOverrides_run. rewrite Hallow.
  set (w0 := started "Merging overrides" w).
  set (sp := length (spinners w)).
  change (stale_of opts w0) with (stale_of opts w).
  change (manifest w0) with (manifest w).
  assert (∀ e', e' ∈ stale_of opts w → name e' = name e →
                false = false ∧ conflicting (target opts) (files w0) e') as Hskip.
  { intros e' [He' _]%stale_of_elem_of Hn. split; [done|].
    rewrite (NoDup_name_eq _ e e' Hnd Hin He' Hn). by exists merged. }
  destruct (upgradeEach (target opts) false (progress sp) (length (stale_of opts w)) 1
                        (stale_of opts w) (manifest w) w0) as [o w1] eqn:Hrun.
  pose proof (upgradeEach_keeps_file _ _ _ _ (progress_quiet sp) _ _ _ _ _ _ (name e)
                Hrun Hskip) as Hfile.
  pose proof (upgradeEach_manifest _ _ _ _ (progress_quiet sp) _ _ _ _ _ _ Hrun) as Hmf.
  split; [|split; [|split]].
  - by destruct o as [[results m']| |].
  - destruct o as [[results m']| |]; cbn [snd manifest set_manifest].
    + eapply (upgradeEach_keeps_entry _ _ _ _ (progress_quiet sp)); [exact Hrun|exact Hskip|done].
    + by rewrite Hmf.
    + by rewrite Hmf.
  - intros results w2. destruct o as [[results1 m']| |]; [|done..].
    intros [= <- <-].
    eapply (upgradeEach_entry _ _ _ _ (progress_quiet sp) _ _ _ _ _ _ _ e merged true);
      [by apply stale_of_NoDup|exact Hrun|by apply stale_of_elem_of|exact Hconf].
  - intros Hread.
    destruct (upgradeEach_returns (target opts) false (progress sp)
                (length (stale_of opts w)) (progress_quiet sp) (stale_of opts w)
                (manifest w) 1 w0) as (results & m' & w2 & Hret).
    + intros c t w3 code. apply progress_no_exit.
    + intros e' [He' Hs]%stale_of_elem_of. apply outOfDate_merged_of; [done|].
      by apply Hread.
    + rewrite Hret in Hrun. injection Hrun as <- <-. by eexists _, _.
Qed.

(** C9: the [conflicts] option of the upgrade command defaults to true.
    When the command line gives no [conflicts] flag, [cmdArgv.conflicts] is
    the declared default, true; the handler calls the engine with
    [allowConflicts = true] (and prints the statistics for it); and then the
    merged content of every stale entry is written to its override file,
    conflicts or not. *)
Theorem upgrade_conflicts_default given w :
  given !! "conflicts" = None →
  let opts := mkUpgradeOpts (as_string (given !! "manifest"))
                            (as_string (given !! "version")) true in
  cmdArgv upgrade_options given "conflicts" = Some (ArgBoolean true)
  ∧ upgrade_argv given = opts
  ∧ upgrade_handler given w
    = (spinner ← ora_start "Merging overrides";
       spinnerGuard spinner (
         upgradeResults ← Api_upgradeOverrides opts (progress spinner);
         ora_succeed spinner;;
         printUpgradeStats upgradeResults true)) w
  ∧ ∀ e merged conflicts results w1,
      NoDup (name <$> manifest w) →
      e ∈ manifest w →
      outOfDate (target opts) e = true →
      merged_of (target opts) (files w) e = Some (merged, conflicts) →
      Api_upgradeOverrides opts (progress (length (spinners w)))
                           (started "Merging overrides" w) = (Returned results, w1) →
      files (upgrade_handler given w).2 !! name e = Some merged
      ∧ mkUpgradeResult (name e) conflicts ∈ results.
Proof.
  intros Hgiven opts.
  assert (cmdArgv upgrade_options given "conflicts" = Some (ArgBoolean true)) as Hdefault.
  { unfold cmdArgv. by rewrite Hgiven. }
  assert (upgrade_argv given = opts) as Hargv.
  { unfold upgrade_argv. rewrite Hdefault. unfold opts, cmdArgv.
    by destruct (given !! "manifest"), (given !! "version"). }
  split; [done|]. split; [done|].
  unfold upgrade_handler. rewrite Hargv. split; [done|].
  intros e merged conflicts results w1 Hnd Hin Hstale Hmerged Hret.
  destruct (upgrade_store opts w) as [-> _].
  rewrite Hret. rewrite Api_upgradeOverrides_run in Hret.
  set (sp := length (spinners w)) in *.
  set (w0 := started "Merging overrides" w) in *.
  change (stale_of opts w0) with (stale_of opts w) in Hret.
  change (manifest w0) with (manifest w) in Hret.
  destruct (upgradeEach (target opts) (allowConflicts opts) (progress sp)
                        (length (stale_of opts w)) 1 (stale_of opts w) (manifest w) w0)
    as [[[results1 m']| |] w2] eqn:Hrun; [|done..].
  injection Hret as <- <-.
  destruct (upgradeEach_entry _ _ _ _ (progress_quiet sp) _ _ _ _ _ _ _ e merged conflicts
              (stale_of_NoDup opts w Hnd) Hrun) as [Hres Hfile];
    [by apply stale_of_elem_of|exact Hmerged|].
  split; [|done]. cbn [snd files set_manifest]. rewrite Hfile.
  by rewrite andb_false_r.
Qed.

(** ** The lock *)

(** The run of [doMain] which finds the lock free: [tryLock] acquires it, the
    command runs, and the lock is released if the command returns; if it
    throws or ends the process, [lock.unlock()] is not reached. *)
Lemma doMain_exec_free pid fn s w :
  s !! lockName = None →
  exec pid (doMain fn) s w
  = match fn w with
    | (Returned _, w') =>
        ([CrossProcessLock.TryLocked pid lockName true;
          CrossProcessLock.Unlocked pid lockName],
         Finished (Returned tt), delete lockName (<[lockName := pid]> s), w')
    | (Thrown ex, w') =>
        ([CrossProcessLock.TryLocked pid lockName true],
         Finished (Thrown ex), <[lockName := pid]> s, w')
    | (Exited c, w') =>
        ([CrossProcessLock.TryLocked pid lockName true],
         Finished (Exited c), <[lockName := pid]> s, w')
    end.
Proof.
  intros Hfree. unfold doMain. cbn. fold lockName.
  unfold CrossProcessLock.tryLock. rewrite Hfree. cbn.
  destruct (fn w) as [[[]|ex|c] w']; cbn; [|done..].
  unfold CrossProcessLock.unlock. by rewrite bool_decide_eq_true_2 by apply lookup_insert_eq.
Qed.

(** The run of [doMain] which finds the lock held: [tryLock] fails, the
    spinner is started and the process waits in [lock()]. *)
Lemma doMain_exec_held pid fn s w holder :
  s !! lockName = Some holder →
  exec pid (doMain fn) s w
  = ([CrossProcessLock.TryLocked pid lockName false],
     Waiting lockName (await (ora_stop (length (spinners w)));; critical fn),
     s, started waiting_text w).
Proof.
  intros Hheld. unfold doMain. cbn. fold lockName.
  unfold CrossProcessLock.tryLock. rewrite Hheld. cbn.
  unfold CrossProcessLock.lock. rewrite Hheld.
  unfold started, startLine, set_console, set_spinners.
  destruct (interactive w) eqn:E; cbn; rewrite ?E, ?app_nil_r; reflexivity.
Qed.

(** The process which waits goes on when it is run in a state where the lock
    is free, and not before. *)
Lemma doMain_resume_held pid k s w holder :
  s !! lockName = Some holder →
  resume (A:=unit) pid (Waiting lockName k) s w = ([], Waiting lockName k, s, w).
Proof. intros Hheld. cbn. unfold CrossProcessLock.lock. by rewrite Hheld. Qed.

Lemma doMain_resume_free pid fn sp s w :
  s !! lockName = None →
  resume pid (Waiting lockName (await (ora_stop sp);; critical fn)) s w
  = match fn (ora_stop sp w).2 with
    | (Returned _, w') =>
        ([CrossProcessLock.Locked pid lockName; CrossProcessLock.Unlocked pid lockName],
         Finished (Returned tt), delete lockName (<[lockName := pid]> s), w')
    | (Thrown ex, w') =>
        ([CrossProcessLock.Locked pid lockName],
         Finished (Thrown ex), <[lockName := pid]> s, w')
    | (Exited c, w') =>
        ([CrossProcessLock.Locked pid lockName],
         Finished (Exited c), <[lockName := pid]> s, w')
    end.
Proof.
  intros Hfree. cbn. unfold CrossProcessLock.lock. rewrite Hfree. cbn.
  destruct (fn _) as [[[]|ex|c] w']; cbn; [|done..].
  unfold CrossProcessLock.unlock. by rewrite bool_decide_eq_true_2 by apply lookup_insert_eq.
Qed.

(** C1, as the code has it: [doMain] releases the lock when the command
    function returns, and only then. From a state where the lock is free the
    run of [doMain] acquires the lock with [tryLock], runs the command once
    and ends as the command ends; when the command returns, [unlock] is the
    last event and the lock is free again; when the command throws or ends
    the process with [process.exit], there is no [unlock] and the lock is
    still held by the process. The same holds for the run which had to wait
    for the lock: from a state where the lock is held, the run of [doMain]
    waits in [lock()], and when it goes on, the lock being free, it acquires
    the lock, stops its spinner, runs the command once and ends as the command
    ends, with [unlock] as its last event exactly when the command returns. *)
Theorem doMain_releases_lock_on_return pid fn s w :
  s !! lockName = None →
  (∃ o w',
     fn w = (o, w')
     ∧ match o with
       | Returned _ =>
           exec pid (doMain fn) s w
           = ([CrossProcessLock.TryLocked pid lockName true;
               CrossProcessLock.Unlocked pid lockName],
              Finished o, delete lockName (<[lockName := pid]> s), w')
           ∧ delete lockName (<[lockName := pid]> s) !! lockName = None
       | _ =>
           exec pid (doMain fn) s w
           = ([CrossProcessLock.TryLocked pid lockName true],
              Finished o, <[lockName := pid]> s, w')
           ∧ <[lockName := pid]> s !! lockName = Some pid
       end)
  ∧ (∀ s0 w0 holder, s0 !! lockName = Some holder →
       ∃ k,
         exec pid (doMain fn) s0 w0
         = ([CrossProcessLock.TryLocked pid lockName false], Waiting lockName k, s0,
            started waiting_text w0)
         ∧ ∀ w1, ∃ o w',
             fn (ora_stop (length (spinners w0)) w1).2 = (o, w')
             ∧ match o with
               | Returned _ =>
                   resume pid (Waiting lockName k) s w1
                   = ([CrossProcessLock.Locked pid lockName;
                       CrossProcessLock.Unlocked pid lockName],
                      Finished o, delete lockName (<[lockName := pid]> s), w')
                   ∧ delete lockName (<[lockName := pid]> s) !! lockName = None
               | _ =>
                   resume pid (Waiting lockName k) s w1
                   = ([CrossProcessLock.Locked pid lockName],
                      Finished o, <[lockName := pid]> s, w')
                   ∧ <[lockName := pid]> s !! lockName = Some pid
               end).
Proof.
  intros Hfree. split.
  - rewrite doMain_exec_free by done.
    destruct (fn w) as [[[]|ex|c] w']; eexists _, _; (split; [done|]); split; try done.
    + apply lookup_delete_eq.
    + apply lookup_insert_eq.
    + apply lookup_insert_eq.
  - intros s0 w0 holder Hheld. eexists. split; [by eapply doMain_exec_held|].
    intros w1. rewrite doMain_resume_free by done.
    destruct (fn _) as [[[]|ex|c] w']; eexists _, _; (split; [done|]); split; try done.
    + apply lookup_delete_eq.
    + apply lookup_insert_eq.
    + apply lookup_insert_eq.
Qed.

(** * More about the commands *)

(** ** Filters *)

Lemma List_filter_none {A} (p : A → bool) (l : list A) :
  Forall (λ x, p x = false) l → List.filter p l = [].
Proof. induction 1 as [|x l' Hx _ IH]; simpl; [done|]. by rewrite Hx. Qed.

Lemma List_filter_all {A} (p : A → bool) (l : list A) :
  Forall (λ x, p x = true) l → List.filter p l = l.
Proof. induction 1 as [|x l' Hx _ IH]; simpl; [done|]. by rewrite Hx, IH. Qed.

Lemma List_filter_Forall {A} (p : A → bool) (l : list A) :
  Forall (λ x, p x = true) (List.filter p l).
Proof.
  apply Forall_forall. intros x Hx. apply list_elem_of_In, filter_In in Hx. by destruct Hx.
Qed.


Lemma List_filter_length_split {A} (p : A → bool) (l : list A) :
  (length (List.filter p l) + length (List.filter (λ x, negb (p x)) l) = length l)%nat.
Proof. rewrite <-length_app. by rewrite filter_split. Qed.

Lemma existsb_filter {A} (p : A → bool) (l : list A) :
  existsb p l = false ↔ List.filter p l = [].
Proof. induction l as [|x l IH]; simpl; [done|]. by destruct (p x). Qed.

Lemma existsb_elem_of {A} (p : A → bool) (l : list A) :
  existsb p l = true ↔ ∃ x, x ∈ l ∧ p x = true.
Proof.
  rewrite existsb_exists. split; intros (x & Hx & Hp); exists x; by rewrite ?list_elem_of_In in *.
Qed.

Lemma ofType_true k err : ofType k err = true ↔ type err = k.
Proof. apply String.eqb_eq. Qed.

Lemma ofType_false k err : negb (ofType k err) = true ↔ type err ≠ k.
Proof. rewrite negb_true_iff. apply String.eqb_neq. Qed.

(** ** The statistics of an upgrade *)

(** X1: the first line of [printUpgradeStats] tells how many of the results
    were merged without conflicts, out of how many: the first number is the
    number of results with [hasConflicts] false, which with the number of
    results with conflicts makes the second. The line is "No out-of-date
    overrides detected" when there is no result. *)
Theorem printUpgradeStats_first_line results allowed w :
  let numAutoPatched := length (List.filter (λ res, negb (hasConflicts res)) results) in
  ∃ rest,
    printUpgradeStats results allowed w
    = (Returned tt,
       emit (Log (chalk greenBright
               (match results with
                | [] => "No out-of-date overrides detected"
                | _ => pretty (Z.of_nat numAutoPatched) +:+ "/"
                         +:+ pretty (Z.of_nat (length results))
                         +:+ " out-of-date overrides automatically merged"
                end)) :: rest) w)
    ∧ (numAutoPatched + length (List.filter hasConflicts results) = length results)%nat.
Proof.
  intros numAutoPatched. rewrite printUpgradeStats_run. unfold stats.
  pose proof (List_filter_length_split hasConflicts results) as Hsplit.
  fold numAutoPatched in Hsplit.
  eexists. split; [|lia].
  replace (Z.of_nat (length results) - Z.of_nat (length (List.filter hasConflicts results)))%Z
    with (Z.of_nat numAutoPatched) by lia.
  destruct results as [|res results]; reflexivity.
Qed.

(** X2: [printUpgradeStats] prints the line about manual resolution exactly
    when conflicts are allowed and some result has conflicts; when conflicts
    are not allowed it is not printed, whatever the results. All it prints
    goes to the standard output, one line or two, and it sets no exit code. *)
Theorem printUpgradeStats_conflicts_line results allowed w :
  ∃ printed,
    printUpgradeStats results allowed w = (Returned tt, emit printed w)
    ∧ ((∃ t, Log (chalk yellowBright t) ∈ printed)
       ↔ allowed = true ∧ ∃ res, res ∈ results ∧ hasConflicts res = true)
    ∧ Forall (λ o, isLog o = true) printed
    ∧ length printed = (if allowed && existsb hasConflicts results then 2 else 1)
    ∧ exitCode (emit printed w) = exitCode w.
Proof.
  rewrite printUpgradeStats_run. eexists. split; [done|]. unfold stats.
  assert ((0 <? Z.of_nat (length (List.filter hasConflicts results)))%Z
          = existsb hasConflicts results) as ->.
  { destruct (existsb hasConflicts results) eqn:E.
    - apply Z.ltb_lt. destruct (List.filter hasConflicts results) eqn:F; [|simpl; lia].
      apply existsb_filter in F. congruence.
    - apply existsb_filter in E. by rewrite E. }
  assert (∀ t first, Log (chalk yellowBright t) ∈ [Log (chalk greenBright first)] → False)
    as Hfirst.
  { intros t first [?|[]%elem_of_nil]%elem_of_cons. done. }
  destruct allowed, (existsb hasConflicts results) eqn:E; cbn [andb];
    (split; [|split; [by repeat constructor|done]]).
  - split; [|intros _; eexists; apply elem_of_cons; right; apply list_elem_of_here].
    intros _. split; [done|]. by apply existsb_elem_of in E.
  - split; [by intros [t ?%Hfirst]|].
    intros [_ Hex]. apply existsb_elem_of in Hex. congruence.
  - split; [by intros [t ?%Hfirst]|]. by intros [? _].
  - split; [by intros [t ?%Hfirst]|]. by intros [? _].
Qed.

(** ** One kind of error *)

(** X3: when no error is of the type, [printErrorType] prints nothing, not
    the message either, and leaves the errors as they are. *)
Theorem printErrorType_absent type_ errors message w :
  Forall (λ err, type err ≠ type_) errors →
  printErrorType type_ errors message w = (Returned errors, w).
Proof.
  intros Hnone. rewrite printErrorType_run. f_equal.
  - f_equal. apply List_filter_all. eapply Forall_impl; [exact Hnone|].
    intros err Hne. by apply ofType_false.
  - unfold block, group. rewrite List_filter_none; [apply emit_nil|].
    eapply Forall_impl; [exact Hnone|].
    intros err Hne. by apply negb_true_iff, ofType_false.
Qed.

(** X4: [printErrorType] takes the errors of the type out of the list it
    works on: what it leaves are the errors of the other types, and no error
    of the type. So a second call for the same type on what the first has
    left prints nothing and leaves the list as it is. *)
Theorem printErrorType_twice type_ errors message message' w :
  ∃ rest w',
    printErrorType type_ errors message w = (Returned rest, w')
    ∧ Forall (λ err, type err ≠ type_) rest
    ∧ (∀ err, err ∈ rest ↔ err ∈ errors ∧ type err ≠ type_)
    ∧ printErrorType type_ rest message' w' = (Returned rest, w').
Proof.
  rewrite printErrorType_run. eexists _, _. split; [done|].
  split.
  { eapply Forall_impl; [apply List_filter_Forall|]. intros err. apply ofType_false. }
  split.
  { intros err. rewrite list_elem_of_In, filter_In, <-list_elem_of_In.
    by rewrite ofType_false. }
  rewrite printErrorType_run. f_equal.
  - f_equal. apply List_filter_all, List_filter_Forall.
  - unfold block, group. rewrite List_filter_none; [apply emit_nil|].
    eapply Forall_impl; [apply List_filter_Forall|].
    intros err Hne. by apply negb_true_iff.
Qed.

(** X5: for a consistent [localeCompare], what [printErrorType] prints is
    the message, then one line for each error of the type, the names in the
    order of [localeCompare] (no name is after a name on a later line), then
    an empty line; and nothing when there is no error of the type. *)
Theorem printErrorType_sorted type_ errors message w :
  consistent localeCompare →
  ∃ names,
    names ≡ₚ overrideName <$> List.filter (ofType type_) errors
    ∧ StronglySorted (notAfter localeCompare) names
    ∧ console (printErrorType type_ errors message w).2
      = console w
        ++ match names with
           | [] => []
           | _ => header message
                  :: ((λ n, Err (Some (plain (" - " +:+ n)))) <$> names) ++ [Err None]
           end.
Proof.
  intros Hc. exists (overrideName <$> group type_ errors).
  split; [|split].
  - rewrite group_names. apply Array_sort_Permutation.
  - rewrite group_names. apply Sorted.Sorted_StronglySorted.
    + intros a b c. apply Hc.
    + by apply Array_sort_Sorted.
  - rewrite printErrorType_run. cbn [snd emit set_console console].
    rewrite block_names. by destruct (overrideName <$> group type_ errors).
Qed.


(** ** The report *)

Lemma unprinted_elem_of kinds errs err :
  err ∈ unprinted kinds errs ↔ err ∈ errs ∧ type err ∉ kinds.
Proof.
  unfold unprinted. rewrite list_elem_of_In, filter_In, <-list_elem_of_In, negb_true_iff.
  apply and_iff_compat_l. rewrite <-not_true_iff_false, existsb_exists.
  split.
  - intros Hno Hin. apply Hno. exists (type err).
    split; [by apply list_elem_of_In|apply String.eqb_refl].
  - intros Hnot (k & Hk & Heq). apply String.eqb_eq in Heq. subst k.
    by apply Hnot, list_elem_of_In.
Qed.

Lemma report_isErr errs : Forall (λ o, isErr o = true) (report errs).
Proof.
  unfold report. destruct errs as [|e errs]; [constructor|].
  constructor; [done|]. apply Forall_forall. intros o Hin.
  apply list_elem_of_bind in Hin as [[k m] [Hin _]].
  rewrite block_names in Hin. cbn [fst snd] in Hin.
  destruct (overrideName <$> group k (e :: errs)); [by apply elem_of_nil in Hin|].
  apply elem_of_cons in Hin as [->|Hin]; [done|].
  apply elem_of_app in Hin as [Hin|Hin].
  - by apply list_elem_of_fmap in Hin as [? [-> _]].
  - by apply list_elem_of_singleton in Hin as ->.
Qed.

Lemma block_length k message errs :
  length (block k message errs)
  = if existsb (ofType k) errs then length (List.filter (ofType k) errs) + 2 else 0.
Proof.
  unfold block.
  pose proof (Array_sort_length (λ a b, localeCompare (overrideName a) (overrideName b))
                (List.filter (ofType k) errs)) as Hlen.
  fold (group k errs) in Hlen.
  destruct (existsb (ofType k) errs) eqn:E.
  - destruct (group k errs) as [|e g] eqn:G.
    + symmetry in Hlen. apply length_zero_iff_nil, existsb_filter in Hlen. congruence.
    + rewrite <-Hlen. cbn [length]. rewrite length_app, length_fmap. cbn [length]. lia.
  - apply existsb_filter in E. rewrite E in Hlen.
    by destruct (group k errs).
Qed.

Lemma blocks_length (table : list (string * string)) errs :
  length (table ≫= λ km, block km.1 km.2 errs)
  = length (table ≫= λ km, List.filter (ofType km.1) errs)
    + 2 * length (List.filter (λ km, existsb (ofType km.1) errs) table).
Proof.
  induction table as [|[k m] table IH]; [done|].
  rewrite !bind_cons, !length_app, IH, block_length. cbn [fst snd List.filter].
  destruct (existsb (ofType k) errs) eqn:E; cbn [length]; [lia|].
  apply existsb_filter in E. rewrite E. cbn [length]. lia.
Qed.

(** The messages of two kinds are two messages. *)
Lemma messages_inj k k' message :
  (k, message) ∈ messages → (k', message) ∈ messages → k = k'.
Proof.
  unfold messages. rewrite !elem_of_cons, !elem_of_nil.
  intros H1 H2.
  repeat match goal with H : _ ∨ _ |- _ => destruct H as [H|H] end;
    try done; by simplify_eq.
Qed.

(** X7: [printValidationErrors] is silent exactly on the empty list: with no
    error it returns and leaves the world as it is, and with an error it
    starts its output with an empty line. *)
Theorem printValidationErrors_silent_iff_empty errs w :
  printValidationErrors [] w = (Returned tt, w)
  ∧ ((printValidationErrors errs w).2 = w ↔ errs = [])
  ∧ (errs = [] ∨ ∃ out, console (printValidationErrors errs w).2 = console w ++ Err None :: out).
Proof.
  split; [done|]. rewrite printValidationErrors_run. cbn [snd].
  destruct errs as [|e errs].
  - split; [|by left]. split; [done|]. intros _. apply emit_nil.
  - split; [|right; by eexists]. split; [|done].
    intros Heq. apply (f_equal (length ∘ console)) in Heq.
    cbn in Heq. rewrite length_app in Heq. cbn in Heq. lia.
Qed.

(** X8: [printValidationErrors] throws exactly when an error has a type
    which is not one of the eight kinds. It then has printed the report of
    the other errors, and the error it throws is "Unprinted errors present:"
    with the errors of the unknown types, which are those left of the list.
    It never ends the process. *)
Theorem printValidationErrors_throws_iff_unknown errs w :
  ((∃ ex, (printValidationErrors errs w).1 = Thrown ex)
   ↔ ∃ err, err ∈ errs ∧ type err ∉ taxonomy)
  ∧ (∀ ex, (printValidationErrors errs w).1 = Thrown ex →
       ex = Error ("Unprinted errors present:" +:+ newline
                     +:+ Array_toString (unprinted taxonomy errs))
       ∧ (printValidationErrors errs w).2 = emit (report errs) w)
  ∧ (∀ err, err ∈ unprinted taxonomy errs ↔ err ∈ errs ∧ type err ∉ taxonomy)
  ∧ (∀ c, (printValidationErrors errs w).1 = Exited c → False).
Proof.
  rewrite printValidationErrors_run. cbn [fst snd].
  split; [|split; [|split]].
  - destruct (unprinted taxonomy errs) as [|r rest] eqn:E.
    + split; [by intros [ex ?]|]. intros (err & Hin & Hty). exfalso.
      assert (err ∈ unprinted taxonomy errs) as Hr by by apply unprinted_elem_of.
      rewrite E in Hr. by apply elem_of_nil in Hr.
    + split; [|by eexists]. intros _. exists r. apply unprinted_elem_of.
      rewrite E. apply list_elem_of_here.
  - intros ex. destruct (unprinted taxonomy errs); [done|]. by intros [= <-].
  - intros err. apply unprinted_elem_of.
  - intros c. by destruct (unprinted taxonomy errs).
Qed.

(** X9: all that [printValidationErrors] writes goes to the standard error
    stream, and it leaves the rest of the world alone: it ends no spinner
    and sets no exit code. *)
Theorem printValidationErrors_stderr_only errs w :
  ∃ out,
    (printValidationErrors errs w).2 = emit out w
    ∧ Forall (λ o, isErr o = true) out
    ∧ spinners (emit out w) = spinners w
    ∧ exitCode (emit out w) = exitCode w.
Proof.
  rewrite printValidationErrors_run. exists (report errs).
  split; [done|]. split; [apply report_isErr|done].
Qed.

(** X10: for errors of the eight kinds, [printValidationErrors] prints one
    line for each error, two for each kind of which there is an error (its
    message and an empty line), and the empty line it starts with. *)
Theorem printValidationErrors_line_count errs w :
  Forall (λ err, type err ∈ taxonomy) errs → errs ≠ [] →
  length (console (printValidationErrors errs w).2)
  = length (console w) + 1 + length errs + 2 * length (present errs).
Proof.
  intros Hknown Hne. rewrite printValidationErrors_run.
  cbn [snd emit set_console console]. rewrite length_app. unfold report, present.
  destruct errs as [|e errs]; [done|]. cbn [length].
  rewrite blocks_length.
  rewrite (Permutation_length (groups_split messages (e :: errs) messages_NoDup Hknown)).
  cbn [length]. lia.
Qed.

(** X11: the message of a kind is printed exactly when the list holds an
    error of the kind. *)
Theorem printValidationErrors_header_iff errs k message w :
  (k, message) ∈ messages →
  header message ∈ drop (length (console w)) (console (printValidationErrors errs w).2)
  ↔ ∃ err, err ∈ errs ∧ type err = k.
Proof.
  intros Hkm. rewrite printValidationErrors_run.
  cbn [snd emit set_console console]. rewrite drop_app_length.
  assert (∀ k' m', header message ∈ block k' m' errs
                   ↔ m' = message ∧ ∃ err, err ∈ errs ∧ type err = k') as Hblock.
  { intros k' m'. unfold block.
    pose proof (Array_sort_Permutation
      (λ a b, localeCompare (overrideName a) (overrideName b))
      (List.filter (ofType k') errs)) as Hp.
    fold (group k' errs) in Hp.
    destruct (group k' errs) as [|e g] eqn:G.
    - split; [by intros ?%elem_of_nil|]. intros [_ (err & Hin & Hty)]. exfalso.
      apply Permutation_nil_l in Hp.
      assert (err ∈ List.filter (ofType k') errs) as Hf.
      { apply list_elem_of_In, filter_In. split; [by apply list_elem_of_In|].
        by apply ofType_true. }
      rewrite <-Hp in Hf. by apply elem_of_nil in Hf.
    - split.
      + intros [Heq|Hin]%elem_of_cons.
        * injection Heq as ->. split; [done|]. exists e.
          assert (e ∈ List.filter (ofType k') errs) as Hf
            by (rewrite <-Hp; apply list_elem_of_here).
          apply list_elem_of_In, filter_In in Hf as [Hin Hty].
          split; [by apply list_elem_of_In|by apply ofType_true].
        * exfalso. apply elem_of_app in Hin as [Hin|Hin].
          -- by apply list_elem_of_fmap in Hin as [? [? _]].
          -- by apply list_elem_of_singleton in Hin.
      + intros [-> _]. apply list_elem_of_here. }
  unfold report. split.
  - destruct errs as [|e errs]; [by intros ?%elem_of_nil|].
    intros [?|Hin]%elem_of_cons; [done|].
    apply list_elem_of_bind in Hin as [[k' m'] [Hin Hkm']].
    cbn [fst snd] in Hin. apply Hblock in Hin as [-> Hex].
    by rewrite (messages_inj k k' message Hkm Hkm').
  - intros (err & Hin & Hty).
    destruct errs as [|e errs]; [by apply elem_of_nil in Hin|].
    apply elem_of_cons. right. apply list_elem_of_bind. exists (k, message).
    split; [|done]. apply Hblock. split; [done|]. by exists err.
Qed.

Lemma items_heading (g : list ValidationError) : omap heading (item <$> g) = [].
Proof. induction g as [|e g IH]; csimpl; [done|]. exact IH. Qed.

Lemma block_heading k message errs :
  omap heading (block k message errs) = if existsb (ofType k) errs then [message] else [].
Proof.
  unfold block.
  pose proof (Array_sort_length (λ a b, localeCompare (overrideName a) (overrideName b))
                (List.filter (ofType k) errs)) as Hlen.
  fold (group k errs) in Hlen.
  destruct (existsb (ofType k) errs) eqn:E.
  - destruct (group k errs) as [|e g] eqn:G.
    + symmetry in Hlen. apply length_zero_iff_nil, existsb_filter in Hlen. congruence.
    + change (omap heading (Err (Some (chalk red message)) :: (item <$> e :: g) ++ [Err None]))
        with (message :: omap heading ((item <$> e :: g) ++ [Err None])).
      by rewrite omap_app, items_heading.
  - apply existsb_filter in E. rewrite E in Hlen.
    by destruct (group k errs).
Qed.

Lemma blocks_heading (table : list (string * string)) errs :
  omap heading (table ≫= λ km, block km.1 km.2 errs)
  = (List.filter (λ km, existsb (ofType km.1) errs) table).*2.
Proof.
  induction table as [|[k m] table IH]; [done|].
  rewrite bind_cons, omap_app, IH, block_heading. cbn [fst snd List.filter].
  by destruct (existsb (ofType k) errs).
Qed.

(** X12: the messages [printValidationErrors] prints are those of the kinds
    of which the list holds an error, each once, in the order of the eight
    kinds, whatever the order of the errors. *)
Theorem printValidationErrors_headers_in_order errs w :
  omap heading (drop (length (console w)) (console (printValidationErrors errs w).2))
  = (present errs).*2.
Proof.
  rewrite printValidationErrors_run. cbn [snd emit set_console console].
  rewrite drop_app_length. unfold report, present.
  destruct errs as [|e errs]; [done|].
  change (omap heading (Err None :: ?l)) with (omap heading l).
  apply blocks_heading.
Qed.

(** ** The guard *)

Lemma ora_fail_not_spinning sp w :
  default false (isSpinning <$> spinners (ora_fail sp w).2 !! sp) = false.
Proof.
  unfold ora_fail. rewrite ora_persist_run. simpl.
  rewrite list_lookup_alter, decide_True by done.
  by destruct (spinners w !! sp).
Qed.

(** X13: a guard inside a guard of the same spinner is one guard: the
    spinner is failed once, by the inner guard, and the outer guard, which
    finds it stopped, only throws the exception on. *)
Theorem spinnerGuard_idempotent {T} sp (fn : M T) w :
  spinnerGuard sp (spinnerGuard sp fn) w = spinnerGuard sp fn w.
Proof.
  rewrite !spinnerGuard_run. destruct (fn w) as [[a|ex|c] w']; [done| |done].
  destruct (default false (isSpinning <$> spinners w' !! sp)) eqn:Hs.
  - by rewrite ora_fail_not_spinning.
  - by rewrite Hs.
Qed.

(** ** validate, on its other paths *)

(** Every run of [validateManifest]. When the validation itself fails, the
    guard fails the spinner if it spins, which it does on an interactive
    terminal and not elsewhere. *)
Lemma validateManifest_run opts w :
  validateManifest opts w
  = match Api_validateManifest opts (started "Validating overrides" w) with
    | inl ex =>
        (Thrown ex,
         ended "Validating overrides"
               (if interactive w then [Persist false "Validating overrides"] else []) w)
    | inr [] =>
        (Returned tt, ended "Validating overrides" [Persist true "Validating overrides"] w)
    | inr errs =>
        match unprinted taxonomy errs with
        | [] =>
            (Returned tt,
             set_exitCode (Some 1%Z)
               (ended "Validating overrides"
                      (Persist false "Validating overrides" :: report errs) w))
        | rest =>
            (Thrown (Error ("Unprinted errors present:" +:+ newline +:+ Array_toString rest)),
             ended "Validating overrides"
                   (Persist false "Validating overrides" :: report errs) w)
        end
    end.
Proof.
  unfold validateManifest.
  rewrite bind_run, ora_start_run, spinnerGuard_run, bind_run.
  unfold ask at 1.
  destruct (Api_validateManifest opts (started "Validating overrides" w)) as [ex|errs].
  - change (spinners (started "Validating overrides" w))
      with (spinners w ++ [mkOra "Validating overrides" (interactive w)]).
    rewrite list_lookup_middle by done. cbn [fmap option_fmap option_map default isSpinning].
    destruct (interactive w) eqn:E.
    + unfold ora_fail. by rewrite <-(emit_nil (started _ w)), ora_persist_started.
    + unfold started, ended. by rewrite E, !app_nil_r.
  - destruct errs as [|e errs].
    + change (length [] =? 0)%nat with true. cbv iota.
      unfold ora_succeed. by rewrite <-(emit_nil (started _ w)), ora_persist_started.
    + change (length (e :: errs) =? 0)%nat with false. cbv iota.
      unfold ora_fail at 1.
      rewrite bind_run, <-(emit_nil (started _ w)), ora_persist_started.
      rewrite bind_run, printValidationErrors_run.
      assert (emit (report (e :: errs))
                   (ended "Validating overrides" ([] ++ [Persist false "Validating overrides"]) w)
              = ended "Validating overrides"
                      (Persist false "Validating overrides" :: report (e :: errs)) w) as ->.
      { unfold ended, emit, set_console. cbn. by rewrite <-!app_assoc. }
      destruct (unprinted taxonomy (e :: errs)) as [|r rest]; [done|].
      cbn [spinners ended]. rewrite list_lookup_middle by done. done.
Qed.

(** X14: when the validation itself fails, [validateManifest] throws the
    exception of the validation on; it prints no report and does not set the
    exit code. The guard fails the spinner only if it spins: on an
    interactive terminal the line of the failure is printed; on another
    stream, where [start] has written its line and the spinner does not
    spin, no line of a failure follows. *)
Theorem validateManifest_api_failure opts w ex :
  Api_validateManifest opts (started "Validating overrides" w) = inl ex →
  ∃ w', validateManifest opts w = (Thrown ex, w')
    ∧ console w'
      = console w ++ (if interactive w then [Persist false "Validating overrides"]
                      else [Dash "Validating overrides"])
    ∧ spinners w' = spinners w ++ [mkOra "Validating overrides" false]
    ∧ exitCode w' = exitCode w.
Proof.
  intros Hapi. rewrite validateManifest_run, Hapi. eexists. split; [done|].
  cbn [console spinners exitCode ended]. unfold startLine.
  by destruct (interactive w).
Qed.

(** X15: when the validation finds an error of a type which is not one of
    the eight kinds, [validateManifest] throws "Unprinted errors present";
    the spinner has failed, once, and the report of the other errors is
    printed, but the exit code is not set: the exception leaves the function
    before [process.exitCode = 1]. *)
Theorem validateManifest_unknown_type opts w errs :
  Api_validateManifest opts (started "Validating overrides" w) = inr errs →
  (∃ err, err ∈ errs ∧ type err ∉ taxonomy) →
  ∃ w', validateManifest opts w
        = (Thrown (Error ("Unprinted errors present:" +:+ newline
                            +:+ Array_toString (unprinted taxonomy errs))), w')
    ∧ console w' = console w ++ startLine "Validating overrides" w
                     ++ Persist false "Validating overrides" :: report errs
    ∧ spinners w' = spinners w ++ [mkOra "Validating overrides" false]
    ∧ exitCode w' = exitCode w.
Proof.
  intros Hapi (err & Hin & Hty). rewrite validateManifest_run, Hapi.
  assert (err ∈ unprinted taxonomy errs) as Hr by by apply unprinted_elem_of.
  destruct errs as [|e errs]; [by apply elem_of_nil in Hin|].
  destruct (unprinted taxonomy (e :: errs)) as [|r rest]; [by apply elem_of_nil in Hr|].
  by eexists.
Qed.

(** X16: however [validateManifest] ends, the spinner it has started does
    not spin at the end. After the line of [start], if there is one, comes
    at most one line of the spinner: the line of the success exactly when
    the validation finds no error, the line of the failure when it finds
    errors, and, when the validation itself fails, the line of the failure
    on an interactive terminal and no line on another stream, where the
    spinner does not spin and the guard leaves it alone. Whatever follows
    goes to the standard error stream. The command never ends the process
    itself, and it changes neither the manifest nor the files. *)
Theorem validateManifest_spinner_ended opts w :
  ∃ mark out,
    spinners (validateManifest opts w).2 = spinners w ++ [mkOra "Validating overrides" false]
    ∧ console (validateManifest opts w).2
      = console w ++ startLine "Validating overrides" w ++ mark ++ out
    ∧ mark = match Api_validateManifest opts (started "Validating overrides" w) with
             | inr [] => [Persist true "Validating overrides"]
             | inr _ => [Persist false "Validating overrides"]
             | inl _ => if interactive w then [Persist false "Validating overrides"] else []
             end
    ∧ Forall (λ o, isErr o = true) out
    ∧ (∀ c, (validateManifest opts w).1 = Exited c → False)
    ∧ manifest (validateManifest opts w).2 = manifest w
    ∧ files (validateManifest opts w).2 = files w.
Proof.
  rewrite validateManifest_run.
  destruct (Api_validateManifest opts (started "Validating overrides" w)) as [ex|[|e errs]].
  - exists (if interactive w then [Persist false "Validating overrides"] else []), [].
    split; [done|]. split; [|by repeat split].
    cbn [snd console ended]. by rewrite app_nil_r.
  - exists [Persist true "Validating overrides"], [].
    split; [done|]. split; [|by repeat split]. done.
  - exists [Persist false "Validating overrides"], (report (e :: errs)).
    destruct (unprinted taxonomy (e :: errs));
      (split; [done|]; split; [done|]; repeat split; try done; apply report_isErr).
Qed.

(** ** The commands where no manifest is found, or no answer given *)

(** X17: when no manifest is found from the directory of the override, the
    add and the remove command throw the exception of the search, and have
    done nothing: nothing is printed, no spinner is started, the user is not
    asked, the manifest is not touched. *)
Theorem commands_need_manifest overridePath ex w :
  findManifest (path_dirname overridePath) = inl ex →
  addOverride overridePath w = (Thrown ex, w)
  ∧ removeOverride overridePath w = (Thrown ex, w).
Proof.
  intros Hfind. unfold addOverride, removeOverride.
  rewrite !bind_run. unfold ask at 1 3. by rewrite Hfind.
Qed.

(** X18: when the prompt for the details of the override fails, the add
    command throws the exception of the prompt. The user has been warned if
    the override is already listed, and nothing else has happened: the
    spinner is not started and the manifest is as it was. *)
Theorem addOverride_prompt_failure overridePath manifestPath ex w :
  findManifest (path_dirname overridePath) = inr manifestPath →
  promptForOverrideDetails = inl ex →
  let overrideName := path_relative (path_dirname manifestPath) (path_resolve overridePath) in
  addOverride overridePath w
  = (Thrown ex,
     emit (if Manifest_has overrideName (manifest w) then [overwrite_warning] else []) w).
Proof.
  intros Hfind Hprompt n. unfold addOverride.
  rewrite bind_run. unfold ask at 1. rewrite Hfind.
  rewrite bind_run. cbn [Api_hasOverride gets]. fold n.
  assert ((if Manifest_has n (manifest w) as b return M unit
           then console_warn (chalk yellow
             "Warning: override already exists in manifest and will be overwritten")
           else mret tt) w
          = (Returned tt,
             emit (if Manifest_has n (manifest w) then [overwrite_warning] else []) w)) as Hwarn.
  { destruct (Manifest_has n (manifest w)); [done|]. by rewrite emit_nil. }
  rewrite bind_run, Hwarn.
  rewrite bind_run. unfold ask at 1. by rewrite Hprompt.
Qed.

(** ** upgrade, when the engine returns *)

(** X19: when the engine returns, the upgrade command reports success,
    whatever the results: the spinner succeeds, the statistics are printed,
    the command returns and sets no exit code, also when merges have
    conflicts. *)
Theorem upgrade_succeeds_with_conflicts opts w results w1 :
  Api_upgradeOverrides opts (progress (length (spinners w)))
                       (started "Merging overrides" w) = (Returned results, w1) →
  ∃ w', upgrade opts w = (Returned tt, w')
    ∧ console w'
      = console w1
        ++ Persist true (default "" (text <$> spinners w1 !! length (spinners w)))
           :: stats results (allowConflicts opts)
    ∧ exitCode w' = exitCode w1
    ∧ default false (isSpinning <$> spinners w' !! length (spinners w)) = false.
Proof.
  intros Hret. rewrite upgrade_run, Hret. eexists. split; [done|].
  unfold ora_succeed. rewrite ora_persist_run.
  cbn [snd emit set_console set_spinners console spinners exitCode].
  split; [by rewrite <-app_assoc|]. split; [done|].
  rewrite list_lookup_alter, decide_True by done.
  by destruct (spinners w1 !! length (spinners w)).
Qed.

(** ** The spinner of [doMain] *)

Lemma ora_stop_started t w :
  (ora_stop (length (spinners w)) (started t w)).2
  = mkWorld (console w ++ startLine t w) (spinners w ++ [mkOra t false])
            (exitCode w) (manifest w) (files w) (interactive w).
Proof.
  unfold ora_stop, ora_halt, modify, started, set_spinners. cbn.
  by rewrite <-(Nat.add_0_r (length (spinners w))), alter_app_r.
Qed.

(** X20: a [doMain] which finds the lock held starts a spinner and waits.
    Once it has the lock it stops the spinner, which leaves no line on the
    console (all there is of the spinner is what [start] wrote: nothing on
    an interactive terminal), and then runs the command; the run ends as the
    command ends. *)
Theorem doMain_waiting_spinner pid fn s s1 w holder :
  s !! lockName = Some holder → s1 !! lockName = None →
  let w1 := mkWorld (console w ++ startLine waiting_text w)
                    (spinners w ++ [mkOra waiting_text false])
                    (exitCode w) (manifest w) (files w) (interactive w) in
  ∃ k,
    exec pid (doMain fn) s w
    = ([CrossProcessLock.TryLocked pid lockName false], Waiting lockName k, s,
       started waiting_text w)
    ∧ ∃ evs s',
        resume pid (Waiting lockName k) s1 (started waiting_text w)
        = (CrossProcessLock.Locked pid lockName :: evs, Finished (fn w1).1, s', (fn w1).2).
Proof.
  intros Hheld Hfree w1. eexists. split; [by eapply doMain_exec_held|].
  rewrite doMain_resume_free by done. rewrite ora_stop_started. fold w1.
  destruct (fn w1) as [[[]|ex|c] w']; by eexists _, _.
Qed.

(** X21: [doMain] works on one lock, the lock named after the package, to
    its end: the events of its run are those of the process on this lock,
    and the locks of other names are held after the run by whom they were
    held before. This is so for the run up to its end or to its wait in
    [lock()], and for every run which goes on from the wait, which ends the
    process or leaves it waiting as it was. *)
Theorem doMain_other_locks pid fn s w :
  ∃ evs st s' w',
    exec pid (doMain fn) s w = (evs, st, s', w')
    ∧ Forall (λ ev, ev ∈ ownEvents pid) evs
    ∧ (∀ n, n = lockName ∨ s' !! n = s !! n)
    ∧ ∀ s1 w1, ∃ evs1 st1 s1' w1',
        resume pid st s1 w1 = (evs1, st1, s1', w1')
        ∧ Forall (λ ev, ev ∈ ownEvents pid) evs1
        ∧ (∀ n, n = lockName ∨ s1' !! n = s1 !! n)
        ∧ (st1 = st ∨ ∃ o, st1 = Finished o).
Proof.
  assert (∀ (m : CrossProcessLock.State) n, n = lockName ∨ <[lockName := pid]> m !! n = m !! n)
    as Hins.
  { intros m n. destruct (decide (n = lockName)) as [|Hne]; [by left|right].
    by rewrite lookup_insert_ne. }
  assert (∀ (m : CrossProcessLock.State) n,
            n = lockName ∨ delete lockName (<[lockName := pid]> m) !! n = m !! n) as Hdel.
  { intros m n. destruct (decide (n = lockName)) as [|Hne]; [by left|right].
    by rewrite lookup_delete_ne, lookup_insert_ne. }
  destruct (s !! lockName) as [holder|] eqn:Hs.
  - rewrite (doMain_exec_held pid fn s w holder Hs). eexists _, _, _, _.
    split; [done|]. split; [by repeat constructor|]. split; [by right|].
    intros s1 w1. destruct (s1 !! lockName) as [holder1|] eqn:Hs1.
    + rewrite (doMain_resume_held pid _ s1 w1 holder1 Hs1). eexists _, _, _, _.
      split; [done|]. split; [constructor|]. split; [by right|by left].
    + rewrite (doMain_resume_free pid fn _ s1 w1 Hs1).
      destruct (fn _) as [[[]|ex|c] w']; eexists _, _, _, _; (split; [done|]);
        (split; [by repeat constructor|]); (split; [|right; by eexists]).
      * apply Hdel.
      * apply Hins.
      * apply Hins.
  - rewrite (doMain_exec_free pid fn s w Hs).
    destruct (fn w) as [[[]|ex|c] w']; eexists _, _, _, _; (split; [done|]);
      (split; [by repeat constructor|]); (split; [first [apply Hdel|apply Hins]|]);
      intros s1 w1; eexists _, _, _, _; (split; [reflexivity|]);
      (split; [constructor|]); (split; [by right|by left]).
Qed.

(** X22: a validation which finds errors does not keep the lock: the
    validate command reports them through [process.exitCode], not through
    [process.exit], so it returns, and [doMain] releases the lock; the exit
    code is 1 when there are errors. *)
Theorem doMain_validate_releases_lock pid opts s w errs :
  s !! lockName = None →
  Api_validateManifest opts (started "Validating overrides" w) = inr errs →
  Forall (λ err, type err ∈ taxonomy) errs →
  ∃ s' w',
    exec pid (doMain (validateManifest opts)) s w
    = ([CrossProcessLock.TryLocked pid lockName true; CrossProcessLock.Unlocked pid lockName],
       Finished (Returned tt), s', w')
    ∧ s' !! lockName = None
    ∧ exitCode w' = match errs with [] => exitCode w | _ => Some 1%Z end.
Proof.
  intros Hfree Hapi Hknown. rewrite doMain_exec_free by done.
  rewrite validateManifest_run, Hapi.
  destruct errs as [|e errs].
  - eexists _, _. split; [done|]. split; [apply lookup_delete_eq|done].
  - rewrite unprinted_known by done.
    eexists _, _. split; [done|]. split; [apply lookup_delete_eq|done].
Qed.

End Cli.

(** ** Histories of the lock *)

Lemma run_app s h1 h2 :
  CrossProcessLock.run s (h1 ++ h2)
  = CrossProcessLock.run s h1 ≫= λ s1, CrossProcessLock.run s1 h2.
Proof.
  revert s. induction h1 as [|ev h1 IH]; intros s; simpl; [done|].
  destruct (CrossProcessLock.after s ev); [apply IH|done].
Qed.

(** An event other than the release by the holder leaves the holder. *)
Lemma after_holder s ev s' n p :
  s !! n = Some p → CrossProcessLock.after s ev = Some s' →
  ev ≠ CrossProcessLock.Unlocked p n → s' !! n = Some p.
Proof.
  intros Hheld Hafter Hev. destruct ev as [q m acquired|q m|q m]; simpl in Hafter.
  - unfold CrossProcessLock.tryLock in Hafter.
    destruct (s !! m) eqn:Hm; case_bool_decide; simplify_eq; [done|].
    rewrite lookup_insert_ne; [done|]. by intros ->; rewrite Hheld in Hm.
  - unfold CrossProcessLock.lock in Hafter.
    destruct (s !! m) eqn:Hm; simplify_eq.
    rewrite lookup_insert_ne; [done|]. by intros ->; rewrite Hheld in Hm.
  - unfold CrossProcessLock.unlock in Hafter. simplify_eq.
    case_bool_decide as Hq; [|done].
    rewrite lookup_delete_ne; [done|]. intros ->. rewrite Hheld in Hq. congruence.
Qed.

(** The holder holds until it releases. *)
Lemma run_holder h : ∀ s s' n p,
  s !! n = Some p → CrossProcessLock.run s h = Some s' →
  CrossProcessLock.Unlocked p n ∉ h → s' !! n = Some p.
Proof.
  induction h as [|ev h IH]; intros s s' n p Hheld Hrun Hnot; simpl in Hrun.
  - by simplify_eq.
  - destruct (CrossProcessLock.after s ev) as [s1|] eqn:Hafter; [|done].
    apply not_elem_of_cons in Hnot as [Hev Hnot].
    eapply IH; [|done|done]. by eapply after_holder.
Qed.

(** A [lock()] returns, and a [tryLock()] acquires, only once the holder has
    released. *)
Lemma acquired_after_unlocked s n p h1 ev h2 s' :
  s !! n = Some p →
  (∃ q, ev = CrossProcessLock.Locked q n ∨ ev = CrossProcessLock.TryLocked q n true) →
  CrossProcessLock.run s (h1 ++ ev :: h2) = Some s' →
  CrossProcessLock.Unlocked p n ∈ h1.
Proof.
  intros Hheld [q Hev] Hrun.
  destruct (decide (CrossProcessLock.Unlocked p n ∈ h1)) as [|Hnot]; [done|exfalso].
  rewrite run_app in Hrun.
  destruct (CrossProcessLock.run s h1) as [s1|] eqn:Hh1; [|done].
  pose proof (run_holder h1 s s1 n p Hheld Hh1 Hnot) as Hs1.
  cbn in Hrun. destruct Hev as [-> | ->]; cbn in Hrun.
  - unfold CrossProcessLock.lock in Hrun. by rewrite Hs1 in Hrun.
  - unfold CrossProcessLock.tryLock in Hrun. by rewrite Hs1 in Hrun.
Qed.

(** C8: on a lock which a process holds, [tryLock()] answers false at once
    and changes nothing; [lock()] has no step while the lock is held, so that
    in every history of the lock which starts with the lock held, a [lock()]
    of another process returns only after the holder's [unlock()]. [doMain]
    tries [tryLock()] first: when it acquires the lock, [lock()] is not
    called; when it does not, the spinner is started and the process waits
    in [lock()], stays there while the lock is held, and goes on, acquiring
    the lock, once it is free. *)
Theorem lock_contention npmPackage_name pid fn :
  (∀ s n p1 p2, s !! n = Some p1 → CrossProcessLock.tryLock p2 n s = (false, s))
  ∧ (∀ s n p1 p2, s !! n = Some p1 → CrossProcessLock.lock p2 n s = None)
  ∧ (∀ s n p1 p2 h1 h2 s',
       s !! n = Some p1 →
       CrossProcessLock.run s (h1 ++ CrossProcessLock.Locked p2 n :: h2) = Some s' →
       CrossProcessLock.Unlocked p1 n ∈ h1)
  ∧ (∀ s w, s !! lockName npmPackage_name = None →
       ∃ evs o s' w',
         exec pid (doMain npmPackage_name fn) s w
         = (CrossProcessLock.TryLocked pid (lockName npmPackage_name) true :: evs,
            Finished o, s', w')
         ∧ CrossProcessLock.Locked pid (lockName npmPackage_name) ∉ evs)
  ∧ (∀ s w holder, s !! lockName npmPackage_name = Some holder →
       ∃ k,
         exec pid (doMain npmPackage_name fn) s w
         = ([CrossProcessLock.TryLocked pid (lockName npmPackage_name) false],
            Waiting (lockName npmPackage_name) k, s, started waiting_text w)
         ∧ (∀ s1 w1 holder1, s1 !! lockName npmPackage_name = Some holder1 →
              resume pid (Waiting (lockName npmPackage_name) k) s1 w1
              = ([], Waiting (lockName npmPackage_name) k, s1, w1))
         ∧ (∀ s1 w1, s1 !! lockName npmPackage_name = None →
              ∃ evs o s' w',
                resume pid (Waiting (lockName npmPackage_name) k) s1 w1
                = (CrossProcessLock.Locked pid (lockName npmPackage_name) :: evs,
                   Finished o, s', w')
                ∧ s' !! lockName npmPackage_name
                  = match o with Returned _ => None | _ => Some pid end)).
Proof.
  split; [|split; [|split; [|split]]].
  - intros s n p1 p2 Hheld. unfold CrossProcessLock.tryLock. by rewrite Hheld.
  - intros s n p1 p2 Hheld. unfold CrossProcessLock.lock. by rewrite Hheld.
  - intros s n p1 p2 h1 h2 s' Hheld Hrun.
    eapply acquired_after_unlocked; [done| |done]. eauto.
  - intros s w Hfree. rewrite doMain_exec_free by done.
    destruct (fn w) as [[[]|ex|c] w']; eexists _, _, _, _; (split; [done|]).
    + by intros [?|[]%elem_of_nil]%elem_of_cons.
    + apply not_elem_of_nil.
    + apply not_elem_of_nil.
  - intros s w holder Hheld. eexists. split; [by eapply doMain_exec_held|]. split.
    + intros s1 w1 holder1 Hheld1. by eapply doMain_resume_held.
    + intros s1 w1 Hfree. rewrite doMain_resume_free by done.
      destruct (fn _) as [[[]|ex|c] w']; eexists _, _, _, _; (split; [done|]).
      * by rewrite lookup_delete_eq.
      * by rewrite lookup_insert_eq.
      * by rewrite lookup_insert_eq.
Qed.

(** * The commands at work *)

(** The order of the code units is a consistent comparator which tells all
    strings apart. *)
Lemma codeUnitCompare_sym a : ∀ b, (0 < codeUnitCompare a b)%Z ↔ (codeUnitCompare b a < 0)%Z.
Proof.
  induction a as [|x a IH]; intros [|y b]; simpl; try lia.
  destruct (Z.eqb_spec (Z.of_N (N_of_ascii x) - Z.of_N (N_of_ascii y)) 0),
           (Z.eqb_spec (Z.of_N (N_of_ascii y) - Z.of_N (N_of_ascii x)) 0);
    try lia. apply IH.
Qed.

Lemma codeUnitCompare_trans a : ∀ b c,
  (codeUnitCompare a b ≤ 0)%Z → (codeUnitCompare b c ≤ 0)%Z → (codeUnitCompare a c ≤ 0)%Z.
Proof.
  induction a as [|x a IH]; intros [|y b] [|z c]; simpl; try lia.
  destruct (Z.eqb_spec (Z.of_N (N_of_ascii x) - Z.of_N (N_of_ascii y)) 0),
           (Z.eqb_spec (Z.of_N (N_of_ascii y) - Z.of_N (N_of_ascii z)) 0),
           (Z.eqb_spec (Z.of_N (N_of_ascii x) - Z.of_N (N_of_ascii z)) 0);
    try lia. apply IH.
Qed.

Lemma codeUnitCompare_consistent : consistent codeUnitCompare.
Proof. split; [apply codeUnitCompare_sym|intros a; apply codeUnitCompare_trans]. Qed.

Lemma codeUnitCompare_eq a : ∀ b, codeUnitCompare a b = 0%Z → a = b.
Proof.
  induction a as [|x a IH]; intros [|y b]; simpl; try done.
  destruct (Z.eqb_spec (Z.of_N (N_of_ascii x) - Z.of_N (N_of_ascii y)) 0) as [Hd|]; [|done].
  intros ->%IH. f_equal.
  rewrite <-(ascii_N_embedding x), <-(ascii_N_embedding y). f_equal. lia.
Qed.

Lemma demo_errors_known : Forall (λ err, type err ∈ taxonomy demo_name) demo_errors.
Proof. repeat constructor; compute_done. Qed.

Lemma canonicalCompare_consistent : consistent canonicalCompare.
Proof.
  destruct codeUnitCompare_consistent as [Hsym Htrans]. split.
  - intros a b. apply Hsym.
  - intros a b c. apply Htrans.
Qed.

(** C10, as the claim states it, fails: the comparator is consistent, and it
    does not tell the two names apart; the stable sort keeps them in the
    order of the input, and the two orders of the input print the two names
    in two orders. *)
Lemma printValidationErrors_order_of_equal_names :
  [demo_composed; demo_decomposed] ≡ₚ [demo_decomposed; demo_composed]
  ∧ consistent canonicalCompare
  ∧ canonicalCompare (overrideName demo_composed) (overrideName demo_decomposed) = 0%Z
  ∧ omap shown (console (printValidationErrors demo_name canonicalCompare
                           [demo_composed; demo_decomposed] demo_world).2)
    = [overrideName demo_composed; overrideName demo_decomposed]
  ∧ omap shown (console (printValidationErrors demo_name canonicalCompare
                           [demo_decomposed; demo_composed] demo_world).2)
    = [overrideName demo_decomposed; overrideName demo_composed]
  ∧ printValidationErrors demo_name canonicalCompare
      [demo_composed; demo_decomposed] demo_world
    ≠ printValidationErrors demo_name canonicalCompare
        [demo_decomposed; demo_composed] demo_world.
Proof.
  split; [apply Permutation_swap|]. split; [apply canonicalCompare_consistent|].
  split; [vm_compute; reflexivity|]. split; [vm_compute; reflexivity|].
  split; [vm_compute; reflexivity|].
  intros Heq. vm_compute in Heq. discriminate Heq.
Qed.

(** Three errors of two kinds: the report shows each name once, the kinds in
    the order of the taxonomy and the names of a kind in order. *)
Lemma printValidationErrors_prints_all_once_witness :
  printValidationErrors demo_name codeUnitCompare demo_errors demo_world
  = (Returned tt, emit (report demo_name codeUnitCompare demo_errors) demo_world)
  ∧ omap shown (report demo_name codeUnitCompare demo_errors)
    = ["src/z.windows.js"; "src/a.windows.js"; "src/b.windows.js"].
Proof.
  destruct (printValidationErrors_prints_all_once demo_name codeUnitCompare
              demo_errors demo_world demo_errors_known) as [Hrun _].
  split; [exact Hrun|]. vm_compute. reflexivity.
Defined.

(** The same errors in the reverse order give the same run. *)
Lemma printValidationErrors_order_independent_witness :
  printValidationErrors demo_name codeUnitCompare demo_errors demo_world
  = printValidationErrors demo_name codeUnitCompare (reverse demo_errors) demo_world.
Proof.
  apply (printValidationErrors_order_independent demo_name codeUnitCompare).
  - apply codeUnitCompare_consistent.
  - intros a b _ _. apply codeUnitCompare_eq.
  - symmetry. apply reverse_Permutation.
Defined.

(** A validation with findings: the command returns, the spinner has failed,
    the report is printed and the exit code is 1. *)
Lemma validateManifest_reports_witness :
  ∃ w', validateManifest demo_name codeUnitCompare demo_validation
                         (mkValidateOpts None None) demo_world = (Returned tt, w')
        ∧ exitCode w' = Some 1%Z
        ∧ console w'
          = Persist false "Validating overrides"
            :: report demo_name codeUnitCompare demo_errors.
Proof.
  destruct (validateManifest_reports demo_name codeUnitCompare demo_validation
              (mkValidateOpts None None) demo_world demo_errors eq_refl demo_errors_known)
    as (w' & Hrun & _ & _ & _ & _ & Hfail & _).
  exists w'. split; [exact Hrun|]. destruct Hfail as [Hconsole Hexit]; [done|].
  split; [exact Hexit|exact Hconsole].
Defined.

(** C7, as the claim states it, fails: the operation below ends the spinner
    with [succeed] and then throws. [spinnerGuard] rethrows the exception,
    and does not fail the spinner: the console shows the line of the success
    and no line of a failure. *)
Lemma spinnerGuard_does_not_fail_stopped_spinner :
  spinnerGuard (T:=unit) 0 (ora_succeed 0 ≫= λ _, throw (Error "late failure"))
               (started "Merging overrides" demo_world)
  = (Thrown (Error "late failure"),
     mkWorld [Persist true "Merging overrides"] [mkOra "Merging overrides" false]
             None [] ∅ true).
Proof. reflexivity. Qed.

Lemma demo_tree_NoDup : NoDup (name <$> manifest demo_tree).
Proof. apply NoDup_singleton. Qed.

(** Removing an override the manifest does not list ends the process with
    exit code 1; removing the one it lists returns and leaves none. *)
Lemma removeOverride_reports_witness :
  removeOverride demo_dirname demo_resolve demo_relative demo_findManifest
                 "src/Bar.windows.js" demo_tree
  = (Exited 1, emit [not_removed_message] demo_tree)
  ∧ ∃ m', removeOverride demo_dirname demo_resolve demo_relative demo_findManifest
                         "src/Foo.windows.js" demo_tree
          = (Returned tt, emit [removed_message] (set_manifest (λ _, m') demo_tree))
          ∧ Manifest_has "src/Foo.windows.js" m' = false.
Proof.
  split.
  - destruct (removeOverride_reports demo_dirname demo_resolve demo_relative
                demo_findManifest "src/Bar.windows.js" "/repo/overrides.json" demo_tree
                eq_refl) as [Habsent _].
    exact (proj2 (Habsent eq_refl)).
  - destruct (removeOverride_reports demo_dirname demo_resolve demo_relative
                demo_findManifest "src/Foo.windows.js" "/repo/overrides.json" demo_tree
                eq_refl) as [_ Hpresent].
    destruct (Hpresent eq_refl) as (l1 & e & l2 & _ & _ & _ & _ & Hrun & Hgone).
    exists (l1 ++ l2). split; [exact Hrun|]. exact (Hgone demo_tree_NoDup).
Defined.

(** Adding the override the manifest already lists leaves one entry of the
    name, in a manifest of one entry. *)
Lemma addOverride_replaces_witness :
  ∃ w', addOverride demo_dirname demo_resolve demo_relative demo_findManifest "0.62.0"
                    (inr demo_details) "src/Foo.windows.js" demo_tree = (Returned tt, w')
        ∧ count_named "src/Foo.windows.js" (manifest w') = 1
        ∧ length (manifest w') = 1.
Proof.
  destruct (addOverride_replaces demo_dirname demo_resolve demo_relative demo_findManifest
              "0.62.0" (inr demo_details) "src/Foo.windows.js" "/repo/overrides.json"
              demo_details demo_tree eq_refl eq_refl demo_tree_NoDup)
    as (w' & Hrun & Hcount & _ & _ & Hlisted & _).
  exists w'. split; [exact Hrun|]. split; [exact Hcount|].
  exact (proj1 (Hlisted eq_refl)).
Defined.

(** An upgrade from 0.61.0 to 0.62.0 of an override changed on both sides,
    with conflicts not allowed: the override file keeps its content, the
    entry stays, and the result reports the conflict. *)
Lemma upgrade_conflicts_not_allowed_witness :
  let opts := mkUpgradeOpts None (Some "0.62.0") false in
  files (upgrade "0.62.0" demo_upstream demo_merge3 opts demo_tree).2
    !! "src/Foo.windows.js" = Some "ours"
  ∧ demo_override ∈ manifest (upgrade "0.62.0" demo_upstream demo_merge3 opts demo_tree).2
  ∧ ∃ results w1,
      Api_upgradeOverrides "0.62.0" demo_upstream demo_merge3 opts (progress 0)
                           (started "Merging overrides" demo_tree) = (Returned results, w1)
      ∧ mkUpgradeResult "src/Foo.windows.js" true ∈ results.
Proof.
  intros opts.
  assert (conflicting demo_upstream demo_merge3 (target "0.62.0" opts)
                      (files demo_tree) demo_override) as Hconf.
  { eexists. reflexivity. }
  destruct (upgrade_conflicts_not_allowed "0.62.0" demo_upstream demo_merge3 opts
              demo_tree demo_override eq_refl demo_tree_NoDup
              (list_elem_of_here _ _) eq_refl Hconf)
    as (Hfile & Hentry & Hresult & Hreturns).
  split; [exact Hfile|]. split; [exact Hentry|].
  destruct Hreturns as (results & w1 & Hret & _).
  { intros e' [->|[]%elem_of_nil]%elem_of_cons _. by eexists. }
  exists results, w1. split; [exact Hret|]. exact (Hresult results w1 Hret).
Defined.

(** The same upgrade from a command line with no flag: the merged content,
    with its conflict markers, is written. *)
Lemma upgrade_conflicts_default_witness :
  allowConflicts (upgrade_argv ∅) = true
  ∧ files (upgrade_handler "0.62.0" demo_upstream demo_merge3 ∅ demo_tree).2
      !! "src/Foo.windows.js" = Some "<<<<<<< ours ======= new >>>>>>>".
Proof.
  destruct (upgrade_conflicts_default "0.62.0" demo_upstream demo_merge3 ∅ demo_tree
              (lookup_empty _)) as (_ & Hargv & _ & Hwritten).
  split; [by rewrite Hargv|].
  eapply (Hwritten demo_override _ true);
    [apply demo_tree_NoDup|apply list_elem_of_here|reflexivity|reflexivity|].
  vm_compute. reflexivity.
Defined.

(** C1, as the claim states it, fails on both failing paths. The remove
    command for an override the manifest does not list prints its error and
    ends the process with exit code 1; the add command run where no manifest
    is found throws. In both runs [doMain] has acquired the lock and does not
    reach [lock.unlock()]: the history has no [unlock], and the lock is still
    held by the process at the end. *)
Lemma doMain_failure_keeps_lock :
  exec 1 (doMain demo_name
            (removeOverride demo_dirname demo_resolve demo_relative demo_findManifest
                            "src/Bar.windows.js"))
       ∅ demo_tree
  = ([CrossProcessLock.TryLocked 1 "react-native-platform-override-cli-lock" true],
     Finished (Exited 1),
     {[ "react-native-platform-override-cli-lock" := 1 ]},
     emit [not_removed_message] demo_tree)
  ∧ exec 1 (doMain demo_name
              (addOverride demo_dirname demo_resolve demo_relative
                           (λ _, inl (Error "ManifestNotFound")) "0.62.0"
                           (inr demo_details) "src/Foo.windows.js"))
         ∅ demo_tree
    = ([CrossProcessLock.TryLocked 1 "react-native-platform-override-cli-lock" true],
       Finished (Thrown (Error "ManifestNotFound")),
       {[ "react-native-platform-override-cli-lock" := 1 ]},
       demo_tree).
Proof. split; vm_compute; reflexivity. Qed.

(** The add command where the manifest is found returns, and the lock is
    released. *)
Lemma doMain_releases_lock_on_return_witness :
  (exec 1 (doMain demo_name
             (addOverride demo_dirname demo_resolve demo_relative demo_findManifest
                          "0.62.0" (inr demo_details) "src/Foo.windows.js"))
        ∅ demo_tree).1
  = ([CrossProcessLock.TryLocked 1 "react-native-platform-override-cli-lock" true;
      CrossProcessLock.Unlocked 1 "react-native-platform-override-cli-lock"],
     Finished (Returned tt), ∅).
Proof.
  destruct (doMain_releases_lock_on_return demo_name 1
              (addOverride demo_dirname demo_resolve demo_relative demo_findManifest
                           "0.62.0" (inr demo_details) "src/Foo.windows.js")
              ∅ demo_tree (lookup_empty _)) as [(o & w' & Hfn & Hrun) _].
  vm_compute in Hfn. injection Hfn as <- <-.
  destruct Hrun as [-> _]. vm_compute. reflexivity.
Defined.

(** A spinner which spins when the operation throws is failed, and the
    exception is thrown on. *)
Lemma spinnerGuard_returns_or_rethrows_witness :
  spinnerGuard (T:=unit) 0 (throw (Error "failure")) (started "Merging overrides" demo_world)
  = (Thrown (Error "failure"),
     (ora_fail 0 (started "Merging overrides" demo_world)).2).
Proof.
  destruct (spinnerGuard_returns_or_rethrows (T:=unit) 0 (throw (Error "failure"))
              (started "Merging overrides" demo_world)) as (_ & Hthrow & _).
  exact (proj1 (Hthrow (Error "failure") _ eq_refl eq_refl)).
Defined.

(** Process 1 holds the lock of the tool: the [tryLock] of process 2 fails,
    and its [doMain] waits in [lock()] with the spinner started. *)
Lemma lock_contention_witness :
  CrossProcessLock.tryLock 2 (lockName demo_name) {[ lockName demo_name := 1 ]}
  = (false, {[ lockName demo_name := 1 ]})
  ∧ ∃ k, exec 2 (doMain demo_name (mret tt)) {[ lockName demo_name := 1 ]} demo_world
         = ([CrossProcessLock.TryLocked 2 (lockName demo_name) false],
            Waiting (lockName demo_name) k, {[ lockName demo_name := 1 ]},
            started waiting_text demo_world).
Proof.
  destruct (lock_contention demo_name 2 (mret tt)) as (Htry & _ & _ & _ & Hheld).
  split.
  - exact (Htry _ _ 1 2 (lookup_singleton_eq _ _)).
  - destruct (Hheld {[ lockName demo_name := 1 ]} demo_world 1 (lookup_singleton_eq _ _))
      as (k & Hrun & _).
    by exists k.
Defined.

(** ** More runs *)

(** The message of the kind of [demo_errors] which is printed last. *)
Lemma demo_errors_outOfDate :
  ("outOfDate",
   "Found overrides whose original files have changed. Upgrade overrides using 'npx react-native-platform-override upgrade:")
  ∈ messages demo_name.
Proof. unfold messages. do 3 apply list_elem_of_further. apply list_elem_of_here. Qed.

(** No error of [demo_errors] has a base which is not found: nothing is
    printed for the kind. *)
Lemma printErrorType_absent_witness :
  printErrorType codeUnitCompare "baseNotFound" demo_errors
                 "Found overrides whose base files do not exist." demo_world
  = (Returned demo_errors, demo_world).
Proof.
  apply (printErrorType_absent codeUnitCompare "baseNotFound" demo_errors).
  repeat constructor; done.
Defined.

(** The two errors of [demo_errors] which are out of date are printed in the
    order of their names. *)
Lemma printErrorType_sorted_witness :
  ∃ names,
    names ≡ₚ ["src/b.windows.js"; "src/a.windows.js"]
    ∧ StronglySorted (notAfter codeUnitCompare) names
    ∧ console (printErrorType codeUnitCompare "outOfDate" demo_errors "Out of date:"
                              demo_world).2
      = match names with
        | [] => []
        | _ => header "Out of date:"
               :: ((λ n, Err (Some (plain (" - " +:+ n)))) <$> names) ++ [Err None]
        end.
Proof.
  exact (printErrorType_sorted codeUnitCompare "outOfDate" demo_errors "Out of date:"
           demo_world codeUnitCompare_consistent).
Defined.

(** Three errors of two kinds: eight lines. *)
Lemma printValidationErrors_line_count_witness :
  length (console (printValidationErrors demo_name codeUnitCompare demo_errors demo_world).2)
  = 8.
Proof.
  rewrite (printValidationErrors_line_count demo_name codeUnitCompare demo_errors demo_world
             demo_errors_known); [reflexivity|done].
Defined.

(** [demo_errors] holds an error which is out of date: the message of the
    kind is printed. *)
Lemma printValidationErrors_header_iff_witness :
  header "Found overrides whose original files have changed. Upgrade overrides using 'npx react-native-platform-override upgrade:"
  ∈ drop (length (console demo_world))
         (console (printValidationErrors demo_name codeUnitCompare demo_errors demo_world).2).
Proof.
  apply (printValidationErrors_header_iff demo_name codeUnitCompare demo_errors "outOfDate"
           _ demo_world demo_errors_outOfDate).
  exists (mkValidationError "outOfDate" "src/b.windows.js").
  split; [apply list_elem_of_here|reflexivity].
Defined.

(** A validation which cannot read the manifest: the command throws and no
    exit code is set. On a terminal the spinner has failed; with the output
    piped, all there is on the console is the line of [start]. *)
Lemma validateManifest_api_failure_witness :
  (∃ w', validateManifest demo_name codeUnitCompare (λ _ _, inl (Error "ManifestNotFound"))
                          (mkValidateOpts None None) demo_world
         = (Thrown (Error "ManifestNotFound"), w')
         ∧ console w' = [Persist false "Validating overrides"]
         ∧ spinners w' = [mkOra "Validating overrides" false]
         ∧ exitCode w' = None)
  ∧ (∃ w', validateManifest demo_name codeUnitCompare (λ _ _, inl (Error "ManifestNotFound"))
                            (mkValidateOpts None None) demo_piped
           = (Thrown (Error "ManifestNotFound"), w')
           ∧ console w' = [Dash "Validating overrides"]
           ∧ spinners w' = [mkOra "Validating overrides" false]
           ∧ exitCode w' = None).
Proof.
  split.
  - exact (validateManifest_api_failure demo_name codeUnitCompare
             (λ _ _, inl (Error "ManifestNotFound")) (mkValidateOpts None None) demo_world
             (Error "ManifestNotFound") eq_refl).
  - exact (validateManifest_api_failure demo_name codeUnitCompare
             (λ _ _, inl (Error "ManifestNotFound")) (mkValidateOpts None None) demo_piped
             (Error "ManifestNotFound") eq_refl).
Defined.

(** A validation which finds an error of a type the report does not know:
    the command throws, and the exit code is not set. *)
Lemma validateManifest_unknown_type_witness :
  ∃ w', validateManifest demo_name codeUnitCompare
          (λ _ _, inr [mkValidationError "outOfDate" "src/a.windows.js";
                       mkValidationError "renamed" "src/b.windows.js"])
          (mkValidateOpts None None) demo_world
        = (Thrown (Error ("Unprinted errors present:" +:+ newline +:+ "[object Object]")), w')
        ∧ exitCode w' = None.
Proof.
  destruct (validateManifest_unknown_type demo_name codeUnitCompare
              (λ _ _, inr [mkValidationError "outOfDate" "src/a.windows.js";
                           mkValidationError "renamed" "src/b.windows.js"])
              (mkValidateOpts None None) demo_world _ eq_refl)
    as (w' & Hrun & _ & _ & Hexit).
  - exists (mkValidationError "renamed" "src/b.windows.js").
    split; [apply list_elem_of_further, list_elem_of_here|].
    unfold taxonomy, messages. cbn. intros Hin.
    repeat (apply elem_of_cons in Hin as [Hin|Hin]; [discriminate Hin|]).
    by apply elem_of_nil in Hin.
  - exists w'. split; [exact Hrun|exact Hexit].
Defined.

(** Where no manifest is found, the two commands throw and nothing has
    changed. *)
Lemma commands_need_manifest_witness :
  addOverride demo_dirname demo_resolve demo_relative (λ _, inl (Error "ManifestNotFound"))
              "0.62.0" (inr demo_details) "src/Foo.windows.js" demo_tree
  = (Thrown (Error "ManifestNotFound"), demo_tree)
  ∧ removeOverride demo_dirname demo_resolve demo_relative
                   (λ _, inl (Error "ManifestNotFound")) "src/Foo.windows.js" demo_tree
    = (Thrown (Error "ManifestNotFound"), demo_tree).
Proof.
  exact (commands_need_manifest demo_dirname demo_resolve demo_relative
           (λ _, inl (Error "ManifestNotFound")) "0.62.0" (inr demo_details)
           "src/Foo.windows.js" (Error "ManifestNotFound") demo_tree eq_refl).
Defined.

(** The prompt is given no answer for an override which is listed: the user
    has been warned, and the manifest is as it was. *)
Lemma addOverride_prompt_failure_witness :
  addOverride demo_dirname demo_resolve demo_relative demo_findManifest "0.62.0"
              (inl (Error "Cancelled")) "src/Foo.windows.js" demo_tree
  = (Thrown (Error "Cancelled"), emit [overwrite_warning] demo_tree).
Proof.
  exact (addOverride_prompt_failure demo_dirname demo_resolve demo_relative
           demo_findManifest "0.62.0" (inl (Error "Cancelled")) "src/Foo.windows.js"
           "/repo/overrides.json" (Error "Cancelled") demo_tree eq_refl eq_refl).
Defined.

(** The upgrade of an override whose merge has conflicts, conflicts allowed:
    the command returns, the spinner has succeeded and no exit code is set. *)
Lemma upgrade_succeeds_with_conflicts_witness :
  ∃ w', upgrade "0.62.0" demo_upstream demo_merge3 (mkUpgradeOpts None (Some "0.62.0") true)
                demo_tree = (Returned tt, w')
        ∧ console w'
          = [ Persist true "Merging overrides (1/1)";
              Log (chalk greenBright "0/1 out-of-date overrides automatically merged");
              Log (chalk yellowBright "1 overrides require manual resolution") ]
        ∧ exitCode w' = None.
Proof.
  destruct (upgrade_succeeds_with_conflicts "0.62.0" demo_upstream demo_merge3
              (mkUpgradeOpts None (Some "0.62.0") true) demo_tree
              [mkUpgradeResult "src/Foo.windows.js" true]
              (Api_upgradeOverrides "0.62.0" demo_upstream demo_merge3
                 (mkUpgradeOpts None (Some "0.62.0") true) (progress 0)
                 (started "Merging overrides" demo_tree)).2)
    as (w' & Hrun & Hconsole & Hexit & _).
  - vm_compute. reflexivity.
  - exists w'. split; [exact Hrun|]. split; [|exact Hexit].
    rewrite Hconsole. vm_compute. reflexivity.
Defined.

(** Process 1 holds the lock: process 2 waits with its spinner, and when
    the lock is free it stops the spinner and runs the command. *)
Lemma doMain_waiting_spinner_witness :
  ∃ k,
    exec 2 (doMain demo_name (mret tt)) {[ lockName demo_name := 1 ]} demo_world
    = ([CrossProcessLock.TryLocked 2 (lockName demo_name) false],
       Waiting (lockName demo_name) k, {[ lockName demo_name := 1 ]},
       started waiting_text demo_world)
    ∧ ∃ evs s',
        resume 2 (Waiting (lockName demo_name) k) ∅ (started waiting_text demo_world)
        = (CrossProcessLock.Locked 2 (lockName demo_name) :: evs, Finished (Returned tt), s',
           mkWorld [] [mkOra waiting_text false] None [] ∅ true).
Proof.
  exact (doMain_waiting_spinner demo_name 2 (mret tt) {[ lockName demo_name := 1 ]} ∅
           demo_world 1 (lookup_singleton_eq _ _) (lookup_empty _)).
Defined.

(** The validation which finds [demo_errors], under [doMain]: the lock is
    released and the exit code is 1. *)
Lemma doMain_validate_releases_lock_witness :
  ∃ s' w',
    exec 1 (doMain demo_name
              (validateManifest demo_name codeUnitCompare demo_validation
                                (mkValidateOpts None None)))
         ∅ demo_world
    = ([CrossProcessLock.TryLocked 1 (lockName demo_name) true;
        CrossProcessLock.Unlocked 1 (lockName demo_name)],
       Finished (Returned tt), s', w')
    ∧ s' !! lockName demo_name = None
    ∧ exitCode w' = Some 1%Z.
Proof.
  exact (doMain_validate_releases_lock demo_name codeUnitCompare demo_validation 1
           (mkValidateOpts None None) ∅ demo_world demo_errors
           (lookup_empty _) eq_refl demo_errors_known).
Defined.
